(** * Flocking engine of the boids visualiser (src/unnamed/part_001)

    A shallow embedding of the [Vector] and [Boid] classes, of the per-frame
    [animate] loop, of [initSimulation] and the reset control, and of the
    canvas pointer handlers.

    Numbers.  A JavaScript number is modelled as [option R]: [Some r] is a
    finite double idealised as the real [r] (no rounding, no overflow) and
    [None] is NaN.  In this program a non-finite value can only arise from a
    division by zero, and the only unguarded one is [diff.div(d * d)] in
    [separation], where [d = 0] forces [diff = (0, 0)]: the value is 0/0, that
    is NaN.  [ndiv] therefore returns [None] for every zero divisor (a nonzero
    dividend over zero, +/-Infinity in JavaScript, never occurs here).
    Comparisons involving NaN are false, as in JavaScript. *)

From Stdlib Require Import Reals Lra Lia Bool List String ZArith.
Import ListNotations.
Open Scope R_scope.

(** ** JavaScript numbers *)

Definition num := option R.

Definition nadd (a b : num) : num :=
  match a, b with Some x, Some y => Some (x + y) | _, _ => None end.
Definition nsub (a b : num) : num :=
  match a, b with Some x, Some y => Some (x - y) | _, _ => None end.
Definition nmul (a b : num) : num :=
  match a, b with Some x, Some y => Some (x * y) | _, _ => None end.
Definition ndiv (a b : num) : num :=
  match a, b with
  | Some x, Some y => if Req_EM_T y 0 then None else Some (x / y)
  | _, _ => None
  end.
(** [Math.sqrt]: NaN on a negative argument. *)
Definition nsqrt (a : num) : num :=
  match a with
  | Some x => if Rlt_dec x 0 then None else Some (sqrt x)
  | None => None
  end.
(** unary [-a] *)
Definition nneg (a : num) : num := option_map Ropp a.
(** [Math.pow(a, 2)] *)
Definition npow2 (a : num) : num := nmul a a.
(** [a > b] and [a < b]: false as soon as one side is NaN. *)
Definition ngt (a b : num) : bool :=
  match a, b with Some x, Some y => if Rlt_dec y x then true else false | _, _ => false end.
Definition nlt (a b : num) : bool := ngt b a.
(** [a || 0] on a number: NaN and 0 are falsy. *)
Definition or0 (a : num) : num :=
  match a with Some x => Some x | None => Some 0 end.

(** ** class Vector *)

Record Vector := mkV { x : num; y : num }.

(** [new Vector(x, y)]: [this.x = x || 0; this.y = y || 0]. *)
Definition newVector (a b : num) : Vector := mkV (or0 a) (or0 b).

(** The mutating methods return the receiver; the model returns its new value. *)
Definition add (v o : Vector) : Vector := mkV (nadd (x v) (x o)) (nadd (y v) (y o)).
Definition sub (v o : Vector) : Vector := mkV (nsub (x v) (x o)) (nsub (y v) (y o)).
Definition mult (v : Vector) (s : num) : Vector := mkV (nmul (x v) s) (nmul (y v) s).
Definition div (v : Vector) (s : num) : Vector := mkV (ndiv (x v) s) (ndiv (y v) s).
Definition mag (v : Vector) : num := nsqrt (nadd (nmul (x v) (x v)) (nmul (y v) (y v))).
Definition normalize (v : Vector) : Vector :=
  let m := mag v in if ngt m (Some 0) then div v m else v.
Definition setMag (v : Vector) (m : num) : Vector := mult (normalize v) m.
Definition limit (v : Vector) (max : num) : Vector :=
  if ngt (mag v) max then setMag v max else v.
Definition copy (v : Vector) : Vector := newVector (x v) (y v).
Definition dist (v1 v2 : Vector) : num :=
  nsqrt (nadd (npow2 (nsub (x v1) (x v2))) (npow2 (nsub (y v1) (y v2)))).

(** ** Simulation parameters *)

Definition MAX_FORCE : num := Some (1 / 2).
Definition MAX_SPEED : num := Some 5.
Definition ORB_RADIUS : num := Some 10.
Definition ORB_STRENGTH : num := Some 40.

(** The [let] parameters the sliders and the toggle write, and the canvas
    extent [animate] reads from the bounding rectangle each frame. *)
Record Config := mkConfig {
  PERCEPTION_RADIUS : num;
  SEPARATION_WEIGHT : num;
  ALIGNMENT_WEIGHT : num;
  COHESION_WEIGHT : num;
  wrap : bool;
  width : nat;
  height : nat
}.

(** [canvas.width] and [canvas.height] are unsigned integers (assigning
    [rect.width] to them truncates), read as JavaScript numbers. *)
Definition canvas_width (cfg : Config) : num := Some (INR (width cfg)).
Definition canvas_height (cfg : Config) : num := Some (INR (height cfg)).

(** ** class Boid *)

Record Boid := mkBoid {
  position : Vector;
  velocity : Vector;
  acceleration : Vector;
  size : num;
  color : string
}.

Definition set_position (b : Boid) (p : Vector) : Boid :=
  mkBoid p (velocity b) (acceleration b) (size b) (color b).
Definition set_velocity (b : Boid) (v : Vector) : Boid :=
  mkBoid (position b) v (acceleration b) (size b) (color b).
Definition set_acceleration (b : Boid) (a : Vector) : Boid :=
  mkBoid (position b) (velocity b) a (size b) (color b).

Definition applyForce (b : Boid) (force : Vector) : Boid :=
  set_acceleration b (add (acceleration b) force).

(** Object identity: the boid [this] is the element at index [i] of the
    population, so [other !== this] is [j <> i] for the element at index [j]. *)

(** The loop of [separation]: steering and total after scanning [l], whose
    first element sits at index [j]. *)
Fixpoint separation_loop (self : Boid) (i : nat) (desiredSeparation : num)
    (j : nat) (l : list Boid) (steering : Vector) (total : nat) : Vector * nat :=
  match l with
  | [] => (steering, total)
  | other :: l' =>
      if Nat.eqb j i then separation_loop self i desiredSeparation (S j) l' steering total
      else
        let d := dist (position self) (position other) in
        if nlt d desiredSeparation then
          let diff := div (sub (copy (position self)) (position other)) (nmul d d) in
          separation_loop self i desiredSeparation (S j) l' (add steering diff) (S total)
        else separation_loop self i desiredSeparation (S j) l' steering total
  end.

Definition zeroV : Vector := newVector (Some 0) (Some 0).

(** [total] is a JavaScript number counting from 0. *)
Definition count (n : nat) : num := Some (INR n).

Definition separation (self : Boid) (i : nat) (boids : list Boid) : Vector :=
  let desiredSeparation := nmul (size self) (Some 6) in
  let '(steering, total) := separation_loop self i desiredSeparation 0 boids zeroV 0 in
  if Nat.ltb 0 total then
    limit (sub (setMag (div steering (count total)) MAX_SPEED) (velocity self)) MAX_FORCE
  else steering.

Fixpoint alignment_loop (cfg : Config) (self : Boid) (i j : nat) (l : list Boid)
    (steering : Vector) (total : nat) : Vector * nat :=
  match l with
  | [] => (steering, total)
  | other :: l' =>
      if (negb (Nat.eqb j i) && nlt (dist (position self) (position other)) (PERCEPTION_RADIUS cfg))%bool
      then alignment_loop cfg self i (S j) l' (add steering (velocity other)) (S total)
      else alignment_loop cfg self i (S j) l' steering total
  end.

Definition alignment (cfg : Config) (self : Boid) (i : nat) (boids : list Boid) : Vector :=
  let '(steering, total) := alignment_loop cfg self i 0 boids zeroV 0 in
  if Nat.ltb 0 total then
    limit (sub (setMag (div steering (count total)) MAX_SPEED) (velocity self)) MAX_FORCE
  else steering.

Fixpoint cohesion_loop (cfg : Config) (self : Boid) (i j : nat) (l : list Boid)
    (steering : Vector) (total : nat) : Vector * nat :=
  match l with
  | [] => (steering, total)
  | other :: l' =>
      if (negb (Nat.eqb j i) && nlt (dist (position self) (position other)) (PERCEPTION_RADIUS cfg))%bool
      then cohesion_loop cfg self i (S j) l' (add steering (position other)) (S total)
      else cohesion_loop cfg self i (S j) l' steering total
  end.

Definition cohesion (cfg : Config) (self : Boid) (i : nat) (boids : list Boid) : Vector :=
  let '(steering, total) := cohesion_loop cfg self i 0 boids zeroV 0 in
  if Nat.ltb 0 total then
    limit (sub (setMag (sub (div steering (count total)) (position self)) MAX_SPEED)
               (velocity self)) MAX_FORCE
  else steering.

Definition flock (cfg : Config) (self : Boid) (i : nat) (boids : list Boid) : Boid :=
  let sep := mult (separation self i boids) (SEPARATION_WEIGHT cfg) in
  let ali := mult (alignment cfg self i boids) (ALIGNMENT_WEIGHT cfg) in
  let coh := mult (cohesion cfg self i boids) (COHESION_WEIGHT cfg) in
  applyForce (applyForce (applyForce self sep) ali) coh.

(** ** Orbs *)

Record Orb := mkOrb {
  orb_position : Vector;
  radius : num;
  type : string;
  orb_color : string
}.

(** One iteration of the loop of [applyOrbForces]. *)
Definition orbStep (cfg : Config) (self : Boid) (orb : Orb) : Boid :=
  let d := dist (position self) (orb_position orb) in
  if (ngt d (Some 1) && nlt d (nmul (PERCEPTION_RADIUS cfg) (Some 2)))%bool then
    let diff := normalize (sub (copy (orb_position orb)) (position self)) in
    let strength :=
      if String.eqb (type orb) "attractor" then ndiv ORB_STRENGTH d
      else ndiv (nneg ORB_STRENGTH) d in
    let force := mult diff strength in
    applyForce self (limit force MAX_FORCE)
  else self.

Definition applyOrbForces (cfg : Config) (self : Boid) (orbs : list Orb) : Boid :=
  fold_left (orbStep cfg) orbs self.

(** ** Integration and boundaries *)

Definition update (self : Boid) : Boid :=
  let v := limit (add (velocity self) (acceleration self)) MAX_SPEED in
  let p := add (position self) v in
  mkBoid p v (mult (acceleration self) (Some 0)) (size self) (color self).

Definition edges (cfg : Config) (wrapMode : bool) (self : Boid) : Boid :=
  let p := position self in
  let v := velocity self in
  if wrapMode then
    let px := if ngt (x p) (canvas_width cfg) then Some 0
              else if nlt (x p) (Some 0) then canvas_width cfg else x p in
    let py := if ngt (y p) (canvas_height cfg) then Some 0
              else if nlt (y p) (Some 0) then canvas_height cfg else y p in
    set_position self (mkV px py)
  else
    let '(px, vx) :=
      if ngt (x p) (canvas_width cfg) then (nsub (canvas_width cfg) (Some 1), nmul (x v) (Some (-1)))
      else if nlt (x p) (Some 0) then (Some 1, nmul (x v) (Some (-1)))
      else (x p, x v) in
    let '(py, vy) :=
      if ngt (y p) (canvas_height cfg) then (nsub (canvas_height cfg) (Some 1), nmul (y v) (Some (-1)))
      else if nlt (y p) (Some 0) then (Some 1, nmul (y v) (Some (-1)))
      else (y p, y v) in
    mkBoid (mkV px py) (mkV vx vy) (acceleration self) (size self) (color self).

(** ** The animation loop *)

(** [array[n] = v] on an index inside the array. *)
Fixpoint set_nth {A : Type} (n : nat) (v : A) (l : list A) : list A :=
  match l, n with
  | [], _ => []
  | _ :: l', O => v :: l'
  | a :: l', S n' => a :: set_nth n' v l'
  end.

(** The body of [for (let boid of boids)] in [animate] for the boid at index
    [i], the population being [boids] when the body starts ([draw] only paints). *)
Definition boid_step (cfg : Config) (orbs : list Orb) (i : nat) (boids : list Boid)
    (boid : Boid) : Boid :=
  edges cfg (wrap cfg) (update (applyOrbForces cfg (flock cfg boid i boids) orbs)).

(** The boids are objects updated in place: after the body for index [i] the
    array holds the new state of that boid. *)
Definition animate_step (cfg : Config) (orbs : list Orb) (i : nat) (boids : list Boid)
    : list Boid :=
  match nth_error boids i with
  | Some boid => set_nth i (boid_step cfg orbs i boids boid) boids
  | None => boids
  end.

Fixpoint animate_loop (cfg : Config) (orbs : list Orb) (i k : nat) (boids : list Boid)
    : list Boid :=
  match k with
  | O => boids
  | S k' => animate_loop cfg orbs (S i) k' (animate_step cfg orbs i boids)
  end.

(** The population as the body for index [i] finds it. *)
Definition seen (cfg : Config) (orbs : list Orb) (i : nat) (boids : list Boid) : list Boid :=
  animate_loop cfg orbs 0 i boids.

(** One frame of [animate] over the whole population. *)
Definition frame (cfg : Config) (orbs : list Orb) (boids : list Boid) : list Boid :=
  animate_loop cfg orbs 0 (List.length boids) boids.

(** ** Pointer input *)

Record MouseEvent := mkMouseEvent {
  button : Z;
  clientX : num;
  clientY : num;
  defaultPrevented : bool
}.

Record Rect := mkRect { left : num; top : num }.

(** The [mousedown] listener of the canvas; [rect] is its bounding rectangle. *)
Definition mousedown (orbs : list Orb) (rect : Rect) (event : MouseEvent) : list Orb :=
  let mouseX := nsub (clientX event) (left rect) in
  let mouseY := nsub (clientY event) (top rect) in
  if Z.eqb (button event) 2 then
    orbs ++ [mkOrb (newVector mouseX mouseY) ORB_RADIUS "attractor" "rgba(0, 100, 255, 0.5)"]
  else if Z.eqb (button event) 0 then
    orbs ++ [mkOrb (newVector mouseX mouseY) ORB_RADIUS "repulsor" "rgba(255, 0, 0, 0.5)"]
  else orbs.

(** The [contextmenu] listener of the canvas: [e.preventDefault()]. *)
Definition contextmenu (e : MouseEvent) : MouseEvent :=
  mkMouseEvent (button e) (clientX e) (clientY e) true.

(** ** Concrete values and derived notions *)

(** A vector with finite components. *)
Definition fin (a b : R) : Vector := mkV (Some a) (Some b).

(** Dot product, to state directions. *)
Definition dot (v w : Vector) : num := nadd (nmul (x v) (x w)) (nmul (y v) (y w)).

(** The parameters after a reset (perception radius 50, weights 1.5, 1 and
    1, wrap mode) on an 800 x 600 canvas. *)
Definition demo_cfg : Config :=
  mkConfig (Some 50) (Some (3 / 2)) (Some 1) (Some 1) true 800 600.

(** A boid as the constructor makes it (size 2, zero acceleration), at a
    given position and velocity. *)
Definition boid_at (px py vx vy : R) : Boid :=
  mkBoid (fin px py) (fin vx vy) zeroV (Some 2) "hsl(200, 70%, 65%)".

Definition attractor_at (px py : R) : Orb :=
  mkOrb (fin px py) ORB_RADIUS "attractor" "rgba(0, 100, 255, 0.5)".

(** The vector (NaN, NaN). *)
Definition nanV : Vector := mkV None None.

(** Two boids at rest at the same point. *)
Definition pair_at_origin : list Boid := [boid_at 0 0 0 0; boid_at 0 0 0 0].

(** Separation as the specification words it (Sections 4.1 and 4.2): the
    neighbours are the other agents at distance below [size * 6]; each adds
    [(self.position - neighbour.position) / distance^2]; with at least one
    neighbour the sum is divided by their count, rescaled to MAX_SPEED
    ([withMagnitude]: normalize, then scale), the velocity is subtracted and
    the result clamped to MAX_FORCE ([clampMagnitude]); no neighbour gives the
    zero vector. *)
Fixpoint neighbours_within (self : Boid) (i : nat) (r : num) (j : nat) (l : list Boid)
    : list Boid :=
  match l with
  | [] => []
  | other :: l' =>
      if (negb (Nat.eqb j i) && nlt (dist (position self) (position other)) r)%bool
      then other :: neighbours_within self i r (S j) l'
      else neighbours_within self i r (S j) l'
  end.

Definition repulsion (self other : Boid) : Vector :=
  let d := dist (position self) (position other) in
  div (sub (position self) (position other)) (nmul d d).

Definition withMagnitude (v : Vector) (m : num) : Vector := mult (normalize v) m.

Definition clampMagnitude (v : Vector) (max : num) : Vector :=
  if ngt (mag v) max then withMagnitude v max else v.

Definition separation_spec (self : Boid) (i : nat) (boids : list Boid) : Vector :=
  let nb := neighbours_within self i (nmul (size self) (Some 6)) 0 boids in
  let sum := fold_left (fun s other => add s (repulsion self other)) nb zeroV in
  match nb with
  | [] => zeroV
  | _ :: _ =>
      clampMagnitude
        (sub (withMagnitude (div sum (count (List.length nb))) MAX_SPEED) (velocity self))
        MAX_FORCE
  end.

(** A boid moving along x, and one at rest exactly at the perception radius
    from it. *)
Definition leader : Boid := boid_at 0 0 1 0.
Definition follower : Boid := boid_at 50 0 0 0.

(** Both components of a vector are numbers other than NaN. *)
Definition finiteV (v : Vector) : bool :=
  match x v, y v with Some _, Some _ => true | _, _ => false end.

(** The state every boid is in from its creation on (its velocity starts
    finite, and [boid_step] re-establishes this): a finite velocity, or else a
    position that is itself not finite. *)
Definition step_invariant (b : Boid) : bool :=
  (finiteV (velocity b) || negb (finiteV (position b)))%bool.

(** ** Construction, initialisation and the reset control *)

(** [new Boid()].  [rnd c], [rnd (c+1)], ... are the values the successive
    calls to [Math.random()] return, and [show] is the conversion of a number
    to its decimal text that the template literal of the colour performs. *)
Definition newBoid (show : R -> string) (cfg : Config) (rnd : nat -> R) (c : nat) : Boid :=
  let position := newVector (nmul (Some (rnd c)) (canvas_width cfg))
                            (nmul (Some (rnd (c + 1)%nat)) (canvas_height cfg)) in
  let velocity := newVector (nsub (nmul (Some (rnd (c + 2)%nat)) (Some 4)) (Some 2))
                            (nsub (nmul (Some (rnd (c + 3)%nat)) (Some 4)) (Some 2)) in
  let velocity := limit velocity MAX_SPEED in
  let acceleration := newVector (Some 0) (Some 0) in
  mkBoid position velocity acceleration (Some 2)
    ("hsl(" ++ show (rnd (c + 4)%nat * 360) ++ ", 70%, 65%)")%string.

(** [for (let i = 0; i < NUM_BOIDS; i++) boids.push(new Boid())]: each boid
    draws five random numbers. *)
Fixpoint newBoids (show : R -> string) (cfg : Config) (rnd : nat -> R) (c n : nat)
    : list Boid :=
  match n with
  | O => []
  | S n' => newBoid show cfg rnd c :: newBoids show cfg rnd (c + 5)%nat n'
  end.

(** The state the listeners share: the parameters, [NUM_BOIDS] (the integer
    the boid-count control holds), the population and the orbs. *)
Record Sim := mkSim {
  params : Config;
  NUM_BOIDS : nat;
  boids : list Boid;
  orbs : list Orb
}.

(** [animate()]: the canvas takes the size of its bounding rectangle
    ([rw] x [rh] once assigned to [canvas.width] and [canvas.height]), then one
    frame runs over the population; drawing and the request of the next frame
    change no state of the model. *)
Definition animate (rw rh : nat) (st : Sim) : Sim :=
  let p := params st in
  let cfg := mkConfig (PERCEPTION_RADIUS p) (SEPARATION_WEIGHT p) (ALIGNMENT_WEIGHT p)
               (COHESION_WEIGHT p) (wrap p) rw rh in
  mkSim cfg (NUM_BOIDS st) (frame cfg (orbs st) (boids st)) (orbs st).

(** [initSimulation()]: a fresh population of [NUM_BOIDS] boids placed on the
    canvas as it currently is, no orbs, then [animate()]. *)
Definition initSimulation (show : R -> string) (rnd : nat -> R) (rw rh : nat) (st : Sim) : Sim :=
  animate rw rh
    (mkSim (params st) (NUM_BOIDS st) (newBoids show (params st) rnd 0 (NUM_BOIDS st)) []).

(** The [click] listener of the reset button (the writes to the controls and
    their labels are not modelled). *)
Definition resetClick (show : R -> string) (rnd : nat -> R) (rw rh : nat) (st : Sim) : Sim :=
  let p := params st in
  let p' := mkConfig (Some 50) (Some (3 / 2)) (Some 1) (Some 1) (wrap p) (width p) (height p) in
  initSimulation show rnd rw rh (mkSim p' 500 (boids st) (orbs st)).

(** A coordinate lies in [[0, hi]] unless it is NaN. *)
Definition within (c : num) (hi : R) : Prop :=
  match c with Some r => 0 <= r <= hi | None => True end.

(** Every coordinate of the point that is a number lies on the canvas. *)
Definition on_canvas (cfg : Config) (p : Vector) : Prop :=
  within (x p) (INR (width cfg)) /\ within (y p) (INR (height cfg)).

(** A velocity that is finite has at most the magnitude MAX_SPEED. *)
Definition speed_ok (v : Vector) : Prop :=
  match x v, y v with
  | Some a, Some b => sqrt (a * a + b * b) <= 5
  | _, _ => True
  end.

(** * Basic facts about the number model *)

Arguments ngt : simpl never.
Arguments nlt : simpl never.

Lemma ngt_true (a b : R) : ngt (Some a) (Some b) = true <-> b < a.
Proof. unfold ngt; destruct (Rlt_dec b a); split; congruence || lra. Qed.

Lemma ngt_false (a b : R) : ngt (Some a) (Some b) = false <-> a <= b.
Proof. unfold ngt; destruct (Rlt_dec b a); split; intros; (congruence || lra). Qed.

Lemma ngt_true_inv (a b : num) :
  ngt a b = true -> exists ra rb, a = Some ra /\ b = Some rb /\ rb < ra.
Proof.
  unfold ngt; destruct a as [ra|], b as [rb|]; try discriminate.
  destruct (Rlt_dec rb ra); try discriminate; eauto.
Qed.

(** A canvas extent is never negative, so no coordinate lies both beyond it
    and below 0. *)
Lemma INR_ngt_excl (a : num) (n : nat) :
  ngt a (Some (INR n)) = true -> nlt a (Some 0) = false.
Proof.
  intros H. apply ngt_true_inv in H as (ra & rb & -> & Hb & Hlt). injection Hb as <-.
  pose proof (pos_INR n). unfold nlt. apply ngt_false. lra.
Qed.

(** * C6: wrap boundary mode *)

(** C6.  In wrap mode, [edges] sends an x beyond the canvas width to 0 and an
    x below 0 to the width (likewise for y and the height); it leaves velocity,
    acceleration, size and color alone, and a boid inside the canvas entirely
    unchanged. *)
Theorem edges_wrap_spec (cfg : Config) (b : Boid) :
  let b' := edges cfg true b in
  (ngt (x (position b)) (canvas_width cfg) = true -> x (position b') = Some 0) /\
  (nlt (x (position b)) (Some 0) = true -> x (position b') = canvas_width cfg) /\
  (ngt (y (position b)) (canvas_height cfg) = true -> y (position b') = Some 0) /\
  (nlt (y (position b)) (Some 0) = true -> y (position b') = canvas_height cfg) /\
  velocity b' = velocity b /\ acceleration b' = acceleration b /\
  size b' = size b /\ color b' = color b /\
  (forall px py : R, position b = mkV (Some px) (Some py) ->
     0 <= px <= INR (width cfg) -> 0 <= py <= INR (height cfg) -> b' = b).
Proof.
  destruct b as [[bx by0] v a s c]; cbn.
  unfold set_position; cbn.
  repeat split.
  - intros H; rewrite H; reflexivity.
  - intros H. destruct (ngt bx (canvas_width cfg)) eqn:E.
    + apply INR_ngt_excl in E. congruence.
    + rewrite H; reflexivity.
  - intros H; rewrite H; reflexivity.
  - intros H. destruct (ngt by0 (canvas_height cfg)) eqn:E.
    + apply INR_ngt_excl in E. congruence.
    + rewrite H; reflexivity.
  - intros px py Hp Hx Hy. injection Hp as -> ->.
    unfold nlt, canvas_width, canvas_height.
    replace (ngt (Some px) (Some (INR (width cfg)))) with false
      by (symmetry; apply ngt_false; lra).
    replace (ngt (Some 0) (Some px)) with false by (symmetry; apply ngt_false; lra).
    replace (ngt (Some py) (Some (INR (height cfg)))) with false
      by (symmetry; apply ngt_false; lra).
    replace (ngt (Some 0) (Some py)) with false by (symmetry; apply ngt_false; lra).
    reflexivity.
Qed.

(** * C7: bounce boundary mode *)

(** C7.  In bounce mode, an x beyond the width is moved to width - 1 and an x
    below 0 to 1, each time with velocity.x negated (likewise y against the
    height, with velocity.y); a coordinate inside the bounds keeps its value
    and its velocity component, and acceleration, size and color are
    unchanged. *)
Theorem edges_bounce_spec (cfg : Config) (b : Boid) :
  let b' := edges cfg false b in
  let p := position b in let v := velocity b in
  (ngt (x p) (canvas_width cfg) = true ->
     x (position b') = nsub (canvas_width cfg) (Some 1) /\
     x (velocity b') = nmul (x v) (Some (-1))) /\
  (nlt (x p) (Some 0) = true ->
     x (position b') = Some 1 /\ x (velocity b') = nmul (x v) (Some (-1))) /\
  (ngt (x p) (canvas_width cfg) = false -> nlt (x p) (Some 0) = false ->
     x (position b') = x p /\ x (velocity b') = x v) /\
  (ngt (y p) (canvas_height cfg) = true ->
     y (position b') = nsub (canvas_height cfg) (Some 1) /\
     y (velocity b') = nmul (y v) (Some (-1))) /\
  (nlt (y p) (Some 0) = true ->
     y (position b') = Some 1 /\ y (velocity b') = nmul (y v) (Some (-1))) /\
  (ngt (y p) (canvas_height cfg) = false -> nlt (y p) (Some 0) = false ->
     y (position b') = y p /\ y (velocity b') = y v) /\
  acceleration b' = acceleration b /\ size b' = size b /\ color b' = color b.
Proof.
  destruct b as [[bx by0] [vx vy] a s c]; cbn.
  destruct (ngt bx (canvas_width cfg)) eqn:Ex;
  [pose proof (INR_ngt_excl _ _ Ex) as Ex'; rewrite Ex' | destruct (nlt bx (Some 0)) eqn:Ex'];
  (destruct (ngt by0 (canvas_height cfg)) eqn:Ey;
   [pose proof (INR_ngt_excl _ _ Ey) as Ey'; rewrite Ey' | destruct (nlt by0 (Some 0)) eqn:Ey']);
  cbn; repeat split; intros; try discriminate; reflexivity.
Qed.

(** * C9: pointer input *)

(** C9.  A primary-button press (code 0) appends a repulsor at the
    canvas-relative pointer position, a secondary-button press (code 2) appends
    an attractor there, any other button appends nothing, and the contextmenu
    listener prevents the default action. *)
Theorem pointer_input_spec (orbs : list Orb) (l t cx cy : R) (btn : Z) (dp : bool) :
  let rect := mkRect (Some l) (Some t) in
  let ev := mkMouseEvent btn (Some cx) (Some cy) dp in
  let at_pointer := mkV (Some (cx - l)) (Some (cy - t)) in
  (btn = 0%Z -> exists c, mousedown orbs rect ev = orbs ++ [mkOrb at_pointer ORB_RADIUS "repulsor" c]) /\
  (btn = 2%Z -> exists c, mousedown orbs rect ev = orbs ++ [mkOrb at_pointer ORB_RADIUS "attractor" c]) /\
  (btn <> 0%Z -> btn <> 2%Z -> mousedown orbs rect ev = orbs) /\
  defaultPrevented (contextmenu ev) = true.
Proof.
  cbn. repeat split.
  - intros ->. eexists; reflexivity.
  - intros ->. eexists; reflexivity.
  - intros H0 H2. unfold mousedown; cbn.
    apply Z.eqb_neq in H0, H2. rewrite H0, H2. reflexivity.
Qed.

(** * Vectors with finite components *)

Lemma sumsq_nonneg (u v : R) : 0 <= u * u + v * v.
Proof. apply Rplus_le_le_0_compat; apply Rle_0_sqr. Qed.

Lemma nsqrt_nonneg (s : R) : 0 <= s -> nsqrt (Some s) = Some (sqrt s).
Proof. intros H; unfold nsqrt; destruct (Rlt_dec s 0); [lra | reflexivity]. Qed.

Lemma mag_fin (a b : R) : mag (fin a b) = Some (sqrt (a * a + b * b)).
Proof. apply nsqrt_nonneg, sumsq_nonneg. Qed.

Lemma dist_fin (a b c d : R) :
  dist (fin a b) (fin c d) = Some (sqrt ((a - c) * (a - c) + (b - d) * (b - d))).
Proof. apply nsqrt_nonneg, sumsq_nonneg. Qed.

(** A finite distance comes from two finite points. *)
Lemma dist_some (p q : Vector) (r : R) :
  dist p q = Some r ->
  exists px py qx qy, p = fin px py /\ q = fin qx qy /\
    r = sqrt ((px - qx) * (px - qx) + (py - qy) * (py - qy)).
Proof.
  destruct p as [[px|] [py|]], q as [[qx|] [qy|]]; unfold dist, nsqrt; cbn;
    try discriminate.
  destruct (Rlt_dec _ 0); [discriminate|]. intros H; injection H as <-.
  exists px, py, qx, qy. repeat split.
Qed.

Lemma sqrt_pos_sq (s : R) : 0 < s -> 0 < sqrt s.
Proof. apply sqrt_lt_R0. Qed.

Lemma normalize_fin (a b : R) :
  0 < a * a + b * b ->
  normalize (fin a b) =
    fin (a / sqrt (a * a + b * b)) (b / sqrt (a * a + b * b)).
Proof.
  intros Hs. pose proof (sqrt_pos_sq _ Hs) as Hm.
  unfold normalize. rewrite mag_fin.
  replace (ngt (Some (sqrt (a * a + b * b))) (Some 0)) with true
    by (symmetry; apply ngt_true; lra).
  unfold div, ndiv; cbn.
  destruct (Req_EM_T (sqrt (a * a + b * b)) 0); [lra | reflexivity].
Qed.

Lemma normalize_zero (a b : R) :
  a * a + b * b = 0 -> normalize (fin a b) = fin a b.
Proof.
  intros Hs. unfold normalize. rewrite mag_fin, Hs, sqrt_0.
  replace (ngt (Some 0) (Some 0)) with false by (symmetry; apply ngt_false; lra).
  reflexivity.
Qed.

Lemma sqrt_scaled (k s : R) : 0 <= k -> 0 <= s -> sqrt (k * k * s) = k * sqrt s.
Proof.
  intros Hk Hs. rewrite sqrt_mult by nra. rewrite sqrt_square by lra. reflexivity.
Qed.

(** [limit] on a finite vector with a positive bound rescales it by a
    positive factor and leaves its magnitude at most the bound. *)
Lemma limit_fin (a b M : R) :
  0 < M ->
  exists k, 0 < k /\ limit (fin a b) (Some M) = fin (a * k) (b * k) /\
    (a * k) * (a * k) + (b * k) * (b * k) <= M * M.
Proof.
  intros HM. unfold limit. rewrite mag_fin.
  set (s := a * a + b * b).
  assert (Hs : 0 <= s) by apply sumsq_nonneg.
  destruct (ngt (Some (sqrt s)) (Some M)) eqn:E.
  - apply ngt_true in E.
    assert (Hs' : 0 < s).
    { destruct (Rle_lt_dec s 0) as [H|H]; [|exact H].
      assert (s = 0) by lra. rewrite H0, sqrt_0 in E. lra. }
    pose proof (sqrt_pos_sq _ Hs') as Hm.
    exists (M / sqrt s). split; [apply Rdiv_lt_0_compat; lra|]. split.
    + unfold setMag. rewrite normalize_fin by exact Hs'. fold s.
      unfold mult, fin; cbn. f_equal; f_equal; field; lra.
    + pose proof (sqrt_sqrt s Hs) as Hss.
      assert (Hn : sqrt s <> 0) by lra.
      replace ((a * (M / sqrt s)) * (a * (M / sqrt s)) + (b * (M / sqrt s)) * (b * (M / sqrt s)))
        with (M * M * s / (sqrt s * sqrt s)) by (unfold s; field; exact Hn).
      rewrite Hss. right. field. lra.
  - apply ngt_false in E. exists 1. split; [lra|]. split.
    + unfold fin; f_equal; f_equal; ring.
    + pose proof (sqrt_pos s). pose proof (sqrt_sqrt s Hs).
      replace ((a * 1) * (a * 1) + (b * 1) * (b * 1)) with s by (unfold s; ring). nra.
Qed.

(** * C4: orb forces *)

Lemma ndiv_nonzero (a b : R) : b <> 0 -> ndiv (Some a) (Some b) = Some (a / b).
Proof. intros H; unfold ndiv; destruct (Req_EM_T b 0); [contradiction | reflexivity]. Qed.

(** The in-range test of [applyOrbForces] makes both points finite and the
    direction to the orb a nonzero vector whose length is the distance. *)
Lemma orb_in_range_geometry (cfg : Config) (p q : Vector) (d : num) :
  d = dist p q ->
  (ngt d (Some 1) && nlt d (nmul (PERCEPTION_RADIUS cfg) (Some 2)))%bool = true ->
  exists px py qx qy rd, p = fin px py /\ q = fin qx qy /\ d = Some rd /\ 1 < rd /\
    rd = sqrt ((qx - px) * (qx - px) + (qy - py) * (qy - py)) /\
    0 < (qx - px) * (qx - px) + (qy - py) * (qy - py).
Proof.
  intros Hd H. apply andb_true_iff in H as [H1 _].
  apply ngt_true_inv in H1 as (rd & one & Erd & Eone & Hlt). injection Eone as <-.
  rewrite Hd in Erd. apply dist_some in Erd as (px & py & qx & qy & -> & -> & Hr).
  exists px, py, qx, qy, rd. rewrite Hd.
  replace ((qx - px) * (qx - px) + (qy - py) * (qy - py))
    with ((px - qx) * (px - qx) + (py - qy) * (py - qy)) by ring.
  repeat split; try assumption.
  - rewrite dist_fin, Hr; reflexivity.
  - destruct (Rle_lt_dec ((px - qx) * (px - qx) + (py - qy) * (py - qy)) 0) as [Hn|Hn];
      [|exact Hn].
    pose proof (sumsq_nonneg (px - qx) (py - qy)).
    assert (E0 : (px - qx) * (px - qx) + (py - qy) * (py - qy) = 0) by lra.
    rewrite E0, sqrt_0 in Hr. lra.
Qed.

(** C4 (as the code has it).  For a boid and an orb at distance [d]: when
    [1 < d < 2 * PERCEPTION_RADIUS] fails, the orb leaves the boid unchanged;
    when it holds, the boid's acceleration is increased by
    [limit(unit direction to the orb * (+/-ORB_STRENGTH / d), MAX_FORCE)], the
    direction having magnitude 1, and this force has a positive dot product
    with the direction to the orb for an attractor and a negative one for any
    other orb (a repulsor). *)
Theorem orbStep_spec (cfg : Config) (b : Boid) (o : Orb) :
  let d := dist (position b) (orb_position o) in
  let in_range := (ngt d (Some 1) && nlt d (nmul (PERCEPTION_RADIUS cfg) (Some 2)))%bool in
  let toward := sub (orb_position o) (position b) in
  let strength := if String.eqb (type o) "attractor" then ndiv ORB_STRENGTH d
                  else ndiv (nneg ORB_STRENGTH) d in
  let F := limit (mult (normalize toward) strength) MAX_FORCE in
  (in_range = false -> orbStep cfg b o = b) /\
  (in_range = true ->
     orbStep cfg b o = applyForce b F /\
     mag (normalize toward) = Some 1 /\
     (type o = "attractor"%string -> ngt (dot F toward) (Some 0) = true) /\
     (type o <> "attractor"%string -> nlt (dot F toward) (Some 0) = true)).
Proof.
  intros d in_range toward strength F. split.
  - intros H. unfold orbStep. fold d. fold in_range. rewrite H. reflexivity.
  - intros H.
    destruct (orb_in_range_geometry cfg (position b) (orb_position o) d eq_refl H)
      as (px & py & qx & qy & rd & Ep & Eq & Ed & Hrd & Hr & Hs).
    assert (Etoward : toward = fin (qx - px) (qy - py))
      by (unfold toward; rewrite Ep, Eq; reflexivity).
    set (s := (qx - px) * (qx - px) + (qy - py) * (qy - py)) in *.
    assert (Hn : normalize toward = fin ((qx - px) / rd) ((qy - py) / rd))
      by (rewrite Etoward, normalize_fin by exact Hs; fold s; rewrite <- Hr; reflexivity).
    assert (Hrr : rd * rd = s) by (rewrite Hr; apply sqrt_sqrt; lra).
    split; [|split; [|split]].
    + unfold orbStep. fold d. fold in_range. rewrite H.
      unfold F, toward. rewrite Eq. reflexivity.
    + rewrite Hn, mag_fin.
      replace ((qx - px) / rd * ((qx - px) / rd) + (qy - py) / rd * ((qy - py) / rd))
        with (s / (rd * rd)) by (unfold s; field; lra).
      rewrite Hrr. unfold Rdiv. rewrite Rinv_r by lra. rewrite sqrt_1. reflexivity.
    + intros Ht. unfold F, strength. rewrite Ht, String.eqb_refl, Ed.
      unfold ORB_STRENGTH. rewrite ndiv_nonzero by lra. rewrite Hn.
      destruct (limit_fin ((qx - px) / rd * (40 / rd)) ((qy - py) / rd * (40 / rd)) (1 / 2))
        as (k & Hk & Hl & _); [lra|].
      change (limit (mult (fin ((qx - px) / rd) ((qy - py) / rd)) (Some (40 / rd))) MAX_FORCE)
        with (limit (fin ((qx - px) / rd * (40 / rd)) ((qy - py) / rd * (40 / rd))) (Some (1 / 2))).
      rewrite Hl, Etoward. unfold dot; cbn. apply ngt_true.
      replace ((qx - px) / rd * (40 / rd) * k * (qx - px) + (qy - py) / rd * (40 / rd) * k * (qy - py))
        with (40 * k / (rd * rd) * s) by (unfold s; field; lra).
      apply Rmult_lt_0_compat; [|exact Hs].
      apply Rdiv_lt_0_compat; nra.
    + intros Ht. unfold F, strength.
      apply String.eqb_neq in Ht. rewrite Ht, Ed.
      unfold ORB_STRENGTH, nneg; cbn [option_map]. rewrite ndiv_nonzero by lra. rewrite Hn.
      destruct (limit_fin ((qx - px) / rd * (Ropp 40 / rd)) ((qy - py) / rd * (Ropp 40 / rd)) (1 / 2))
        as (k & Hk & Hl & _); [lra|].
      change (limit (mult (fin ((qx - px) / rd) ((qy - py) / rd)) (Some (Ropp 40 / rd))) MAX_FORCE)
        with (limit (fin ((qx - px) / rd * (Ropp 40 / rd)) ((qy - py) / rd * (Ropp 40 / rd))) (Some (1 / 2))).
      rewrite Hl, Etoward. unfold dot; cbn. unfold nlt. apply ngt_true.
      replace ((qx - px) / rd * (Ropp 40 / rd) * k * (qx - px) + (qy - py) / rd * (Ropp 40 / rd) * k * (qy - py))
        with (- (40 * k / (rd * rd) * s)) by (unfold s; field; lra).
      enough (0 < 40 * k / (rd * rd) * s) by lra.
      apply Rmult_lt_0_compat; [|exact Hs].
      apply Rdiv_lt_0_compat; nra.
Qed.

Lemma sqrt_of_square (s r : R) : 0 <= r -> s = r * r -> sqrt s = r.
Proof. intros Hr ->. apply sqrt_square; exact Hr. Qed.

(** C4, the range's lower end.  An attractor at distance exactly 1 exerts no
    force: the test is [d > 1], so 1 is excluded, while the force the range
    [1 <= d] calls for, [limit(direction * ORB_STRENGTH / 1, MAX_FORCE)],
    would change the acceleration. *)
Lemma orb_at_distance_one_no_force :
  let b := boid_at 0 0 0 0 in
  let o := attractor_at 1 0 in
  let toward := sub (orb_position o) (position b) in
  dist (position b) (orb_position o) = Some 1 /\
  orbStep demo_cfg b o = b /\
  applyForce b (limit (mult (normalize toward) (ndiv ORB_STRENGTH (Some 1))) MAX_FORCE) <> b.
Proof.
  cbv zeta.
  assert (Hd : dist (position (boid_at 0 0 0 0)) (orb_position (attractor_at 1 0)) = Some 1).
  { cbn [position orb_position boid_at attractor_at]. rewrite dist_fin.
    f_equal. apply sqrt_of_square; lra. }
  split; [exact Hd|]. split.
  - unfold orbStep. rewrite Hd.
    replace (ngt (Some 1) (Some 1)) with false by (symmetry; apply ngt_false; lra).
    reflexivity.
  - change (sub (orb_position (attractor_at 1 0)) (position (boid_at 0 0 0 0)))
      with (fin (1 - 0) (0 - 0)).
    rewrite normalize_fin by lra.
    replace (sqrt ((1 - 0) * (1 - 0) + (0 - 0) * (0 - 0))) with 1
      by (symmetry; apply sqrt_of_square; lra).
    unfold ORB_STRENGTH. rewrite ndiv_nonzero by lra.
    change (limit (mult (fin ((1 - 0) / 1) ((0 - 0) / 1)) (Some (40 / 1))) MAX_FORCE)
      with (limit (fin ((1 - 0) / 1 * (40 / 1)) ((0 - 0) / 1 * (40 / 1))) (Some (1 / 2))).
    destruct (limit_fin ((1 - 0) / 1 * (40 / 1)) ((0 - 0) / 1 * (40 / 1)) (1 / 2))
      as (k & Hk & Hl & _); [lra|].
    rewrite Hl. unfold applyForce, set_acceleration, add, boid_at, zeroV, newVector, fin.
    cbn. intros E. injection E as E. lra.
Qed.

Lemma orbStep_spec_witness :
  let b := boid_at 0 0 0 0 in
  let o := attractor_at 3 4 in
  (ngt (dist (position b) (orb_position o)) (Some 1)
   && nlt (dist (position b) (orb_position o)) (nmul (PERCEPTION_RADIUS demo_cfg) (Some 2)))%bool
    = true /\
  ngt (dot (limit (mult (normalize (sub (orb_position o) (position b)))
                        (ndiv ORB_STRENGTH (dist (position b) (orb_position o)))) MAX_FORCE)
           (sub (orb_position o) (position b))) (Some 0) = true.
Proof.
  cbv zeta.
  assert (Hd : dist (position (boid_at 0 0 0 0)) (orb_position (attractor_at 3 4)) = Some 5).
  { cbn [position orb_position boid_at attractor_at]. rewrite dist_fin.
    f_equal. apply sqrt_of_square; lra. }
  assert (Hin : (ngt (dist (position (boid_at 0 0 0 0)) (orb_position (attractor_at 3 4))) (Some 1)
   && nlt (dist (position (boid_at 0 0 0 0)) (orb_position (attractor_at 3 4)))
          (nmul (PERCEPTION_RADIUS demo_cfg) (Some 2)))%bool = true).
  { rewrite Hd. cbn [demo_cfg PERCEPTION_RADIUS nmul]. unfold nlt.
    rewrite (proj2 (ngt_true 5 1)), (proj2 (ngt_true (50 * 2) 5)) by lra. reflexivity. }
  split; [exact Hin|].
  exact (proj1 (proj2 (proj2 (proj2 (orbStep_spec demo_cfg (boid_at 0 0 0 0) (attractor_at 3 4))
    Hin))) eq_refl).
Defined.

(** * Non-finite values: two boids at the same position *)

Lemma ndiv_by_zero (a : num) (r : R) : r = 0 -> ndiv a (Some r) = None.
Proof.
  intros ->. destruct a as [x0|]; [|reflexivity].
  unfold ndiv. destruct (Req_EM_T 0 0); [reflexivity | lra].
Qed.

Lemma add_nan_r (v : Vector) : add v nanV = nanV.
Proof. destruct v as [[]] ; [destruct y0|destruct y0]; reflexivity. Qed.

Lemma add_nan_l (v : Vector) : add nanV v = nanV.
Proof. reflexivity. Qed.

Lemma limit_nan (m : num) : limit nanV m = nanV.
Proof. reflexivity. Qed.

Lemma setMag_nan (m : num) : setMag nanV m = nanV.
Proof. reflexivity. Qed.

(** [separation] of the first of two boids standing at the same point: the
    scan divides the zero difference by [d * d = 0]. *)
Lemma separation_coincident (px py vx vy wx wy : R) :
  separation (boid_at px py vx vy) 0 [boid_at px py vx vy; boid_at px py wx wy] = nanV.
Proof.
  unfold separation. cbn [separation_loop Nat.eqb].
  cbv zeta. cbn [position boid_at size].
  rewrite dist_fin.
  replace (sqrt ((px - px) * (px - px) + (py - py) * (py - py))) with 0
    by (symmetry; apply sqrt_of_square; lra).
  replace (nlt (Some 0) (nmul (Some 2) (Some 6))) with true
    by (symmetry; unfold nlt, nmul; apply ngt_true; lra).
  unfold div at 2. cbn [x y copy newVector or0 sub nsub nmul].
  rewrite !(ndiv_by_zero _ (0 * 0)) by ring.
  cbn [separation_loop]. cbn [Nat.ltb Nat.leb].
  rewrite add_nan_r. reflexivity.
Qed.

(** With a non-finite separation, [flock] leaves a non-finite acceleration. *)
Lemma flock_nan_acceleration (cfg : Config) (self : Boid) (i : nat) (boids : list Boid) :
  separation self i boids = nanV -> acceleration (flock cfg self i boids) = nanV.
Proof.
  intros H. unfold flock. rewrite H. cbn [applyForce set_acceleration acceleration].
  change (mult nanV (SEPARATION_WEIGHT cfg)) with nanV.
  rewrite add_nan_r. reflexivity.
Qed.

(** C2 (failing input).  Two boids at rest at the same point: the first boid's
    separation, with one neighbour in range, is (NaN, NaN), whose magnitude is
    NaN and so not at most MAX_FORCE. *)
Theorem separation_coincident_not_bounded :
  separation (boid_at 0 0 0 0) 0 pair_at_origin = nanV /\
  mag (separation (boid_at 0 0 0 0) 0 pair_at_origin) = None.
Proof.
  unfold pair_at_origin. rewrite separation_coincident. split; reflexivity.
Qed.

(** C1 (failing input).  In the first frame of two boids at rest at the same
    point, the velocity of the first boid after [update()] is (NaN, NaN): its
    magnitude is NaN, not at most MAX_SPEED. *)
Theorem update_coincident_speed_nan :
  let b := update (applyOrbForces demo_cfg (flock demo_cfg (boid_at 0 0 0 0) 0 pair_at_origin) []) in
  velocity b = nanV /\ mag (velocity b) = None /\
  nth_error (frame demo_cfg [] pair_at_origin) 0 = Some (edges demo_cfg true b).
Proof.
  cbv zeta.
  assert (Ha : acceleration (flock demo_cfg (boid_at 0 0 0 0) 0 pair_at_origin) = nanV)
    by (apply flock_nan_acceleration, separation_coincident).
  split; [|split]; [| |reflexivity];
    unfold applyOrbForces, fold_left, update; rewrite Ha, add_nan_r, limit_nan; reflexivity.
Qed.

(** C8 (failing input).  In the same frame, [this.acceleration.mult(0)]
    leaves the first boid's acceleration at (NaN, NaN) instead of zero. *)
Theorem update_coincident_acceleration_nan :
  acceleration (update (applyOrbForces demo_cfg
     (flock demo_cfg (boid_at 0 0 0 0) 0 pair_at_origin) [])) = nanV /\
  nanV <> fin 0 0.
Proof.
  assert (Ha : acceleration (flock demo_cfg (boid_at 0 0 0 0) 0 pair_at_origin) = nanV)
    by (apply flock_nan_acceleration, separation_coincident).
  unfold applyOrbForces, fold_left, update. cbn [acceleration]. rewrite Ha.
  split; [reflexivity | discriminate].
Qed.

(** * Finite states *)

(** On finite values, [update] clamps the new velocity to MAX_SPEED, moves by
    it and clears the acceleration. *)
Lemma update_finite_spec (b : Boid) (px py vx vy ax ay : R) :
  position b = fin px py -> velocity b = fin vx vy -> acceleration b = fin ax ay ->
  exists nx ny,
    velocity (update b) = fin nx ny /\ nx * nx + ny * ny <= 5 * 5 /\
    velocity (update b) = limit (add (velocity b) (acceleration b)) MAX_SPEED /\
    position (update b) = fin (px + nx) (py + ny) /\
    acceleration (update b) = fin 0 0.
Proof.
  intros Hp Hv Ha. unfold update. rewrite Hp, Hv, Ha.
  destruct (limit_fin (vx + ax) (vy + ay) 5) as (k & Hk & Hl & Hb); [lra|].
  change (add (fin vx vy) (fin ax ay)) with (fin (vx + ax) (vy + ay)).
  unfold MAX_SPEED. rewrite Hl.
  exists ((vx + ax) * k), ((vy + ay) * k). cbn [velocity position acceleration].
  repeat split; try reflexivity; try exact Hb.
  unfold mult, fin; cbn. f_equal; f_equal; ring.
Qed.

Lemma normalize_finite (a b : R) : exists a' b', normalize (fin a b) = fin a' b'.
Proof.
  destruct (Rle_lt_dec (a * a + b * b) 0) as [H|H].
  - pose proof (sumsq_nonneg a b). rewrite normalize_zero by lra. eauto.
  - rewrite normalize_fin by exact H. eauto.
Qed.

Lemma setMag_finite (a b m : R) : exists a' b', setMag (fin a b) (Some m) = fin a' b'.
Proof.
  destruct (normalize_finite a b) as (a' & b' & E).
  unfold setMag. rewrite E. eexists; eexists; reflexivity.
Qed.

Lemma INR_S_nonzero (n : nat) : INR (S n) <> 0.
Proof. pose proof (pos_INR n). rewrite S_INR. lra. Qed.

(** The loop of [separation] keeps a finite steering when no neighbour in
    range sits at distance 0. *)
Lemma separation_loop_finite (self : Boid) (i : nat) (ds : num) :
  forall (l : list Boid) (j : nat) (sx sy : R) (t : nat),
  (forall k other, nth_error l k = Some other -> (j + k)%nat <> i ->
     nlt (dist (position self) (position other)) ds = true ->
     ngt (dist (position self) (position other)) (Some 0) = true) ->
  exists a b t', separation_loop self i ds j l (fin sx sy) t = (fin a b, t').
Proof.
  induction l as [|other l IH]; intros j sx sy t Hpre.
  - cbn. eauto.
  - cbn [separation_loop].
    assert (Hpre' : forall k o, nth_error l k = Some o -> (S j + k)%nat <> i ->
              nlt (dist (position self) (position o)) ds = true ->
              ngt (dist (position self) (position o)) (Some 0) = true).
    { intros k o Hk Hne. apply (Hpre (S k) o Hk). lia. }
    destruct (Nat.eqb j i) eqn:Eji; [apply IH; exact Hpre'|].
    apply Nat.eqb_neq in Eji. cbv zeta.
    destruct (nlt (dist (position self) (position other)) ds) eqn:Er; [|apply IH; exact Hpre'].
    pose proof (Hpre 0%nat other eq_refl ltac:(lia) Er) as Hpos.
    apply ngt_true_inv in Hpos as (rd & z & Ed & Ez & Hrd). injection Ez as <-.
    pose proof Ed as Ed'.
    apply dist_some in Ed' as (px & py & qx & qy & Ep & Eq & _).
    rewrite Ed, Ep, Eq.
    change (div (sub (copy (fin px py)) (fin qx qy)) (nmul (Some rd) (Some rd)))
      with (mkV (ndiv (Some (px - qx)) (Some (rd * rd))) (ndiv (Some (py - qy)) (Some (rd * rd)))).
    rewrite !ndiv_nonzero by nra.
    change (add (fin sx sy) (mkV (Some ((px - qx) / (rd * rd))) (Some ((py - qy) / (rd * rd)))))
      with (fin (sx + (px - qx) / (rd * rd)) (sy + (py - qy) / (rd * rd))).
    apply IH. exact Hpre'.
Qed.

(** A boid whose position is not finite has no neighbour in range: every
    distance from it is NaN, and the loop keeps steering and total as they are. *)
Lemma dist_nan_l (p q : Vector) : finiteV p = false -> dist p q = None.
Proof.
  destruct p as [[px|] [py|]]; destruct q as [[qx|] [qy|]]; cbn; try discriminate; reflexivity.
Qed.

Lemma separation_loop_nan (self : Boid) (i : nat) (ds : num) :
  finiteV (position self) = false ->
  forall l j s t, separation_loop self i ds j l s t = (s, t).
Proof.
  intros Hp l. induction l as [|other l IH]; intros j s t; [reflexivity|].
  cbn [separation_loop]. destruct (Nat.eqb j i); [apply IH|].
  cbv zeta. rewrite (dist_nan_l _ _ Hp). unfold nlt, ngt.
  destruct ds; apply IH.
Qed.

Lemma update_invariant (b : Boid) : step_invariant (update b) = true.
Proof.
  unfold step_invariant, update. cbn [velocity position].
  destruct (limit (add (velocity b) (acceleration b)) MAX_SPEED) as [[vx|] [vy|]];
    destruct (position b) as [[px|] [py|]]; reflexivity.
Qed.

Ltac split_ifs :=
  repeat match goal with
  | |- context [if ?c then _ else _] => destruct c
  end.

Lemma edges_velocity_finite (cfg : Config) (w : bool) (b : Boid) :
  finiteV (velocity b) = true -> finiteV (velocity (edges cfg w b)) = true.
Proof.
  destruct b as [p [[vx|] [vy|]] a sz c]; try discriminate. intros _.
  unfold edges. destruct w; [reflexivity|]. cbn [position velocity]. split_ifs; reflexivity.
Qed.

Lemma edges_position_nan (cfg : Config) (w : bool) (b : Boid) :
  finiteV (position b) = false -> finiteV (position (edges cfg w b)) = false.
Proof.
  destruct b as [[[px|] [py|]] v a sz c]; try discriminate; intros _;
    unfold edges; cbn [position velocity x y]; unfold nlt, ngt;
    destruct (canvas_width cfg), (canvas_height cfg);
    destruct w; cbn; split_ifs; reflexivity.
Qed.

Lemma edges_invariant (cfg : Config) (w : bool) (b : Boid) :
  step_invariant b = true -> step_invariant (edges cfg w b) = true.
Proof.
  unfold step_invariant. intros H. apply orb_true_iff in H as [H|H].
  - rewrite (edges_velocity_finite cfg w b H). reflexivity.
  - apply negb_true_iff in H. rewrite (edges_position_nan cfg w b H).
    apply orb_true_r.
Qed.

(** Every boid that has been through a frame's body is in [step_invariant],
    whatever its state and the population were before. *)
Lemma boid_step_invariant (cfg : Config) (orbs : list Orb) (i : nat)
    (boids : list Boid) (b : Boid) :
  step_invariant (boid_step cfg orbs i boids b) = true.
Proof. unfold boid_step. apply edges_invariant, update_invariant. Qed.

(** C10.  For a boid in the state every boid is in during the simulation
    ([step_invariant]: its velocity is finite unless its position is not),
    and for any population in which every other boid within
    [desiredSeparation = size * 6] lies at a strictly positive distance,
    [separation] returns a vector with finite components. *)
Theorem separation_finite (self : Boid) (i : nat) (boids : list Boid) :
  step_invariant self = true ->
  (forall j other, nth_error boids j = Some other -> j <> i ->
     nlt (dist (position self) (position other)) (nmul (size self) (Some 6)) = true ->
     ngt (dist (position self) (position other)) (Some 0) = true) ->
  exists a b, separation self i boids = fin a b.
Proof.
  intros Hinv Hpre. unfold step_invariant in Hinv.
  destruct (finiteV (position self)) eqn:Ep.
  2:{ unfold separation. rewrite (separation_loop_nan self i _ Ep).
      cbn. exists 0, 0. reflexivity. }
  rewrite orb_false_r in Hinv.
  destruct (velocity self) as [[vx|] [vy|]] eqn:Hv; try discriminate.
  unfold separation.
  destruct (separation_loop_finite self i (nmul (size self) (Some 6)) boids 0 0 0 0 Hpre)
    as (a & b & t & E).
  change zeroV with (fin 0 0). rewrite E.
  destruct (Nat.ltb 0 t) eqn:Et; [|eauto].
  apply Nat.ltb_lt in Et. destruct t as [|t]; [lia|].
  change (div (fin a b) (count (S t))) with
    (mkV (ndiv (Some a) (Some (INR (S t)))) (ndiv (Some b) (Some (INR (S t))))).
  rewrite !ndiv_nonzero by apply INR_S_nonzero.
  destruct (setMag_finite (a / INR (S t)) (b / INR (S t)) 5) as (c & d & Em).
  unfold MAX_SPEED. change (mkV (Some (a / INR (S t))) (Some (b / INR (S t))))
    with (fin (a / INR (S t)) (b / INR (S t))).
  rewrite Em, Hv.
  change (sub (fin c d) (mkV (Some vx) (Some vy))) with (fin (c - vx) (d - vy)).
  destruct (limit_fin (c - vx) (d - vy) (1 / 2)) as (k & _ & Hl & _); [lra|].
  unfold MAX_FORCE. rewrite Hl. eauto.
Qed.

Lemma separation_finite_witness :
  exists a b, separation (boid_at 0 0 0 0) 0 [boid_at 0 0 0 0; boid_at 3 4 0 0] = fin a b.
Proof.
  apply (separation_finite (boid_at 0 0 0 0) 0 [boid_at 0 0 0 0; boid_at 3 4 0 0]).
  - reflexivity.
  - intros [|[|j]] other Hj Hne Hin; cbn in Hj; try discriminate.
    + lia.
    + injection Hj as <-. cbn [position boid_at]. rewrite dist_fin.
      replace (sqrt ((0 - 3) * (0 - 3) + (0 - 4) * (0 - 4))) with 5
        by (symmetry; apply sqrt_of_square; lra).
      apply ngt_true; lra.
    + destruct j; discriminate.
Defined.

(** * C3: separation against its description *)

(** A boid in range has a finite position, which [copy] returns unchanged. *)
Lemma copy_in_range (p q : Vector) (r : num) :
  nlt (dist p q) r = true -> copy p = p.
Proof.
  intros H. apply ngt_true_inv in H as (rr & rd & _ & Ed & _).
  apply dist_some in Ed as (px & py & qx & qy & -> & _ & _). reflexivity.
Qed.

Lemma separation_loop_spec (self : Boid) (i : nat) (ds : num) :
  forall (l : list Boid) (j : nat) (st : Vector) (t : nat),
  separation_loop self i ds j l st t =
    (fold_left (fun s other => add s (repulsion self other)) (neighbours_within self i ds j l) st,
     (t + List.length (neighbours_within self i ds j l))%nat).
Proof.
  induction l as [|other l IH]; intros j st t.
  - cbn. f_equal. lia.
  - cbn [separation_loop neighbours_within].
    destruct (Nat.eqb j i); cbn [negb andb]; [apply IH|].
    cbv zeta.
    destruct (nlt (dist (position self) (position other)) ds) eqn:Er; [|apply IH].
    rewrite IH. cbn [fold_left List.length].
    rewrite (copy_in_range _ _ _ Er). f_equal. lia.
Qed.

Lemma separation_eq_spec (self : Boid) (i : nat) (boids : list Boid) :
  separation self i boids = separation_spec self i boids.
Proof.
  unfold separation, separation_spec. rewrite separation_loop_spec.
  destruct (neighbours_within self i (nmul (size self) (Some 6)) 0 boids) as [|o nb];
    reflexivity.
Qed.

(** Two boids at rest at distance 1: the first one's separation is a positive
    multiple of the vector from the second boid to the first. *)
Lemma separation_pair_at_distance_one (ax ay bx by0 : R) :
  dist (fin ax ay) (fin bx by0) = Some 1 ->
  exists k, 0 < k /\
    separation (boid_at ax ay 0 0) 0 [boid_at ax ay 0 0; boid_at bx by0 0 0]
      = fin (k * (ax - bx)) (k * (ay - by0)).
Proof.
  intros Hd.
  assert (Hs : (ax - bx) * (ax - bx) + (ay - by0) * (ay - by0) = 1).
  { rewrite dist_fin in Hd. injection Hd as Hd.
    apply sqrt_lem_0 in Hd; [lra | apply sumsq_nonneg | lra]. }
  rewrite separation_eq_spec. unfold separation_spec.
  cbn [neighbours_within Nat.eqb negb andb position boid_at size].
  rewrite Hd.
  replace (nlt (Some 1) (nmul (Some 2) (Some 6))) with true
    by (symmetry; unfold nlt, nmul; apply ngt_true; lra).
  cbn [neighbours_within fold_left List.length].
  assert (Esum : div (add zeroV (repulsion (boid_at ax ay 0 0) (boid_at bx by0 0 0))) (count 1)
                 = fin (ax - bx) (ay - by0)).
  { unfold repulsion. cbn [position boid_at]. rewrite Hd.
    unfold div at 2. cbn [x y sub fin nmul nsub].
    rewrite !ndiv_nonzero by lra.
    unfold div, count, add, zeroV, newVector, or0; cbn [x y nadd].
    rewrite !ndiv_nonzero by (simpl; lra).
    unfold fin; f_equal; f_equal; simpl; field. }
  rewrite Esum. unfold withMagnitude.
  rewrite normalize_fin by lra. rewrite Hs, sqrt_1.
  change (sub (mult (fin ((ax - bx) / 1) ((ay - by0) / 1)) MAX_SPEED) (velocity (boid_at ax ay 0 0)))
    with (fin ((ax - bx) / 1 * 5 - 0) ((ay - by0) / 1 * 5 - 0)).
  change (clampMagnitude (fin ((ax - bx) / 1 * 5 - 0) ((ay - by0) / 1 * 5 - 0)) MAX_FORCE)
    with (limit (fin ((ax - bx) / 1 * 5 - 0) ((ay - by0) / 1 * 5 - 0)) (Some (1 / 2))).
  destruct (limit_fin ((ax - bx) / 1 * 5 - 0) ((ay - by0) / 1 * 5 - 0) (1 / 2))
    as (k & Hk & Hl & _); [lra|].
  rewrite Hl. exists (5 * k). split; [lra|].
  unfold fin; f_equal; f_equal; field.
Qed.

(** C3.  [separation] equals the specification's separation on every input;
    and for two boids at rest at distance 1 with [desiredSeparation = 12]
    (size 2) the first boid's separation is nonzero and a positive multiple
    of the vector from the second boid to the first. *)
Theorem separation_refinement :
  (forall (self : Boid) (i : nat) (boids : list Boid),
     separation self i boids = separation_spec self i boids) /\
  (forall ax ay bx by0 : R,
     dist (fin ax ay) (fin bx by0) = Some 1 ->
     nmul (size (boid_at ax ay 0 0)) (Some 6) = Some (2 * 6) /\
     exists k, 0 < k /\
       separation (boid_at ax ay 0 0) 0 [boid_at ax ay 0 0; boid_at bx by0 0 0]
         = fin (k * (ax - bx)) (k * (ay - by0)) /\
       separation (boid_at ax ay 0 0) 0 [boid_at ax ay 0 0; boid_at bx by0 0 0] <> zeroV).
Proof.
  split; [exact separation_eq_spec|].
  intros ax ay bx by0 Hd. split; [reflexivity|].
  destruct (separation_pair_at_distance_one ax ay bx by0 Hd) as (k & Hk & E).
  exists k. split; [exact Hk|]. split; [exact E|].
  rewrite E. unfold zeroV, newVector, or0, fin. intros Z. injection Z as Z1 Z2.
  rewrite dist_fin in Hd. injection Hd as Hd.
  assert (ax - bx = 0) by (apply (Rmult_eq_reg_l k); lra).
  assert (ay - by0 = 0) by (apply (Rmult_eq_reg_l k); lra).
  rewrite H, H0 in Hd. replace (0 * 0 + 0 * 0) with 0 in Hd by ring.
  rewrite sqrt_0 in Hd. lra.
Qed.

Lemma separation_refinement_witness :
  dist (fin 0 0) (fin 1 0) = Some 1 /\
  exists k, 0 < k /\
    separation (boid_at 0 0 0 0) 0 [boid_at 0 0 0 0; boid_at 1 0 0 0]
      = fin (k * (0 - 1)) (k * (0 - 0)).
Proof.
  assert (Hd : dist (fin 0 0) (fin 1 0) = Some 1)
    by (rewrite dist_fin; f_equal; apply sqrt_of_square; lra).
  split; [exact Hd|].
  destruct (proj2 (proj2 separation_refinement 0 0 1 0 Hd)) as (k & Hk & E & _).
  exists k. split; [exact Hk | exact E].
Defined.

(** * C5: one frame of [animate] *)

Lemma set_nth_length {A : Type} (n : nat) (v : A) (l : list A) :
  List.length (set_nth n v l) = List.length l.
Proof.
  revert n; induction l as [|a l IH]; intros [|n]; cbn; try rewrite IH; reflexivity.
Qed.

Lemma set_nth_same {A : Type} (n : nat) (v : A) (l : list A) :
  (n < List.length l)%nat -> nth_error (set_nth n v l) n = Some v.
Proof.
  revert n; induction l as [|a l IH]; intros [|n] H; cbn in *; try lia; auto.
  apply IH. lia.
Qed.

Lemma set_nth_other {A : Type} (n m : nat) (v : A) (l : list A) :
  m <> n -> nth_error (set_nth n v l) m = nth_error l m.
Proof.
  revert n m; induction l as [|a l IH]; intros [|n] [|m] H; cbn; try reflexivity; try lia.
  apply IH. lia.
Qed.

Lemma animate_step_length (cfg : Config) (orbs : list Orb) (i : nat) (boids : list Boid) :
  List.length (animate_step cfg orbs i boids) = List.length boids.
Proof.
  unfold animate_step. destruct (nth_error boids i); [apply set_nth_length | reflexivity].
Qed.

Lemma animate_loop_last (cfg : Config) (orbs : list Orb) :
  forall (k s : nat) (boids : list Boid),
  animate_loop cfg orbs s (S k) boids =
    animate_step cfg orbs (s + k) (animate_loop cfg orbs s k boids).
Proof.
  induction k as [|k IH]; intros s boids.
  - cbn. rewrite Nat.add_0_r. reflexivity.
  - change (animate_loop cfg orbs s (S (S k)) boids)
      with (animate_loop cfg orbs (S s) (S k) (animate_step cfg orbs s boids)).
    rewrite IH. cbn [animate_loop]. f_equal. lia.
Qed.

Lemma seen_S (cfg : Config) (orbs : list Orb) (i : nat) (boids : list Boid) :
  seen cfg orbs (S i) boids = animate_step cfg orbs i (seen cfg orbs i boids).
Proof. unfold seen. rewrite animate_loop_last. reflexivity. Qed.

(** C5 (as the code has it).  During a frame the population keeps its length
    and order, and the boids are updated in place one after the other: when
    the body for index [i] starts, every boid at an index [j >= i] still has
    its start-of-frame state, while every boid at an index [j < i] already
    has the state its own step of this frame produced (flock, orb forces,
    update and edges over the population as it found it). *)
Theorem frame_in_place (cfg : Config) (orbs : list Orb) (boids : list Boid) (i : nat) :
  (i <= List.length boids)%nat ->
  List.length (seen cfg orbs i boids) = List.length boids /\
  (forall j, (i <= j)%nat -> nth_error (seen cfg orbs i boids) j = nth_error boids j) /\
  (forall j b, (j < i)%nat -> nth_error boids j = Some b ->
     nth_error (seen cfg orbs i boids) j =
       Some (boid_step cfg orbs j (seen cfg orbs j boids) b)).
Proof.
  induction i as [|i IH]; intros Hi.
  - split; [reflexivity|]. split; [reflexivity|]. intros j b Hj; lia.
  - destruct (IH ltac:(lia)) as (Hlen & Hsame & Hdone).
    destruct (nth_error boids i) as [bi|] eqn:Ebi;
      [|apply nth_error_None in Ebi; lia].
    assert (Eseen : nth_error (seen cfg orbs i boids) i = Some bi)
      by (rewrite Hsame by lia; exact Ebi).
    rewrite seen_S. unfold animate_step at 1 2 3. rewrite Eseen.
    split; [rewrite set_nth_length; exact Hlen|]. split.
    + intros j Hj. rewrite set_nth_other by lia. apply Hsame. lia.
    + intros j b Hj Eb. destruct (Nat.eq_dec j i) as [->|Hne].
      * rewrite Ebi in Eb. injection Eb as <-.
        apply set_nth_same. rewrite Hlen. lia.
      * rewrite set_nth_other by exact Hne. apply Hdone; [lia | exact Eb].
Qed.

Lemma frame_in_place_witness :
  (1 <= List.length pair_at_origin)%nat /\
  nth_error (seen demo_cfg [] 1 pair_at_origin) 1 = nth_error pair_at_origin 1.
Proof.
  split; [cbn; lia|].
  apply (proj1 (proj2 (frame_in_place demo_cfg [] pair_at_origin 1 ltac:(cbn; lia)))).
  lia.
Defined.

Lemma limit_within (a b M : R) :
  0 <= M -> a * a + b * b <= M * M -> limit (fin a b) (Some M) = fin a b.
Proof.
  intros HM Hab. unfold limit. rewrite mag_fin.
  replace (ngt (Some (sqrt (a * a + b * b))) (Some M)) with false; [reflexivity|].
  symmetry. apply ngt_false.
  rewrite <- (sqrt_square M HM). apply sqrt_le_1_alt. exact Hab.
Qed.

(** The leader's step in the first frame: nobody is in its range, so it just
    moves by its velocity. *)
Lemma leader_step :
  boid_step demo_cfg [] 0 [leader; follower] leader =
    mkBoid (fin 1 0) (fin 1 0) (fin 0 0) (Some 2) "hsl(200, 70%, 65%)".
Proof.
  assert (Hd : dist (fin 0 0) (fin 50 0) = Some 50)
    by (rewrite dist_fin; f_equal; apply sqrt_of_square; lra).
  assert (Hsep : separation leader 0 [leader; follower] = zeroV).
  { unfold separation. cbn [separation_loop Nat.eqb]. cbv zeta.
    cbn [position leader follower boid_at size]. rewrite Hd.
    replace (nlt (Some 50) (nmul (Some 2) (Some 6))) with false
      by (symmetry; unfold nlt, nmul; apply ngt_false; lra).
    reflexivity. }
  assert (Hfar : nlt (Some 50) (PERCEPTION_RADIUS demo_cfg) = false)
    by (unfold nlt; apply ngt_false; cbn; lra).
  assert (Hali : alignment demo_cfg leader 0 [leader; follower] = zeroV).
  { unfold alignment. cbn [alignment_loop Nat.eqb negb andb].
    cbn [position leader follower boid_at]. rewrite Hd, Hfar. reflexivity. }
  assert (Hcoh : cohesion demo_cfg leader 0 [leader; follower] = zeroV).
  { unfold cohesion. cbn [cohesion_loop Nat.eqb negb andb].
    cbn [position leader follower boid_at]. rewrite Hd, Hfar. reflexivity. }
  unfold boid_step. unfold flock at 1. rewrite Hsep, Hali, Hcoh.
  unfold applyOrbForces, fold_left.
  replace (applyForce (applyForce (applyForce leader (mult zeroV (SEPARATION_WEIGHT demo_cfg)))
      (mult zeroV (ALIGNMENT_WEIGHT demo_cfg))) (mult zeroV (COHESION_WEIGHT demo_cfg)))
    with (boid_at 0 0 1 0)
    by (unfold boid_at, applyForce, set_acceleration, add, mult, zeroV, newVector, or0; cbn;
        f_equal; f_equal; f_equal; ring).
  unfold update. cbn [velocity acceleration position size color boid_at].
  change (add (fin 1 0) zeroV) with (fin (1 + 0) (0 + 0)).
  unfold MAX_SPEED. rewrite limit_within by lra.
  change (add (fin 0 0) (fin (1 + 0) (0 + 0))) with (fin (0 + (1 + 0)) (0 + (0 + 0))).
  replace (fin (0 + (1 + 0)) (0 + (0 + 0))) with (fin 1 0) by (unfold fin; f_equal; f_equal; ring).
  replace (fin (1 + 0) (0 + 0)) with (fin 1 0) by (unfold fin; f_equal; f_equal; ring).
  replace (mult zeroV (Some 0)) with (fin 0 0)
    by (unfold mult, zeroV, newVector, or0, fin; cbn; f_equal; f_equal; ring).
  pose proof (le_INR 1 800 ltac:(lia)) as H800. pose proof (pos_INR 600) as H600.
  rewrite INR_1 in H800.
  unfold edges, set_position. cbn [wrap demo_cfg position fin x y].
  unfold canvas_width, canvas_height. cbn [width height demo_cfg].
  replace (ngt (Some 1) (Some (INR 800))) with false by (symmetry; apply ngt_false; lra).
  replace (nlt (Some 1) (Some 0)) with false by (symmetry; unfold nlt; apply ngt_false; lra).
  replace (ngt (Some 0) (Some (INR 600))) with false by (symmetry; apply ngt_false; lra).
  replace (nlt (Some 0) (Some 0)) with false by (symmetry; unfold nlt; apply ngt_false; lra).
  reflexivity.
Qed.

(** C5, refuted.  Two boids, the leader at (0,0) moving at (1,0) and the
    follower at rest at (50,0), exactly at the perception radius 50.  When the
    follower's scan runs, the leader already stands at (1,0), not at its
    start-of-frame position, and the follower's alignment over the population
    it scans is nonzero, while over the start-of-frame population it would be
    zero. *)
Lemma follower_sees_moved_leader :
  let boids := [leader; follower] in
  nth_error (seen demo_cfg [] 1 boids) 0 <> nth_error boids 0 /\
  alignment demo_cfg follower 1 (seen demo_cfg [] 1 boids) <>
    alignment demo_cfg follower 1 boids.
Proof.
  cbv zeta.
  assert (Eseen : seen demo_cfg [] 1 [leader; follower] =
    [mkBoid (fin 1 0) (fin 1 0) (fin 0 0) (Some 2) "hsl(200, 70%, 65%)"; follower]).
  { unfold seen. cbn [animate_loop animate_step nth_error set_nth].
    rewrite leader_step. reflexivity. }
  rewrite Eseen. split.
  - cbn [nth_error]. unfold leader, boid_at, fin. intros E. injection E as E. lra.
  - assert (Hstart : alignment demo_cfg follower 1 [leader; follower] = zeroV).
    { unfold alignment. cbn [alignment_loop Nat.eqb negb andb position leader follower boid_at].
      rewrite dist_fin.
      replace (sqrt ((50 - 0) * (50 - 0) + (0 - 0) * (0 - 0))) with 50
        by (symmetry; apply sqrt_of_square; lra).
      replace (nlt (Some 50) (PERCEPTION_RADIUS demo_cfg)) with false
        by (symmetry; unfold nlt; apply ngt_false; cbn; lra).
      reflexivity. }
    rewrite Hstart.
    unfold alignment. cbn [alignment_loop Nat.eqb negb andb position velocity follower boid_at].
    rewrite dist_fin.
    replace (sqrt ((50 - 1) * (50 - 1) + (0 - 0) * (0 - 0))) with 49
      by (symmetry; apply sqrt_of_square; lra).
    replace (nlt (Some 49) (PERCEPTION_RADIUS demo_cfg)) with true
      by (symmetry; unfold nlt; apply ngt_true; cbn; lra).
    cbn [alignment_loop Nat.eqb negb andb Nat.ltb Nat.leb].
    replace (div (add zeroV (fin 1 0)) (count 1)) with (fin 1 0)
      by (unfold div, add, count, zeroV, newVector, or0, fin; cbn [x y nadd INR];
          rewrite !ndiv_nonzero by lra; f_equal; f_equal; field).
    unfold setMag. rewrite normalize_fin by lra.
    replace (sqrt (1 * 1 + 0 * 0)) with 1 by (symmetry; apply sqrt_of_square; lra).
    change (sub (mult (fin (1 / 1) (0 / 1)) MAX_SPEED) (fin 0 0))
      with (fin (1 / 1 * 5 - 0) (0 / 1 * 5 - 0)).
    destruct (limit_fin (1 / 1 * 5 - 0) (0 / 1 * 5 - 0) (1 / 2)) as (k & Hk & Hl & _); [lra|].
    unfold MAX_FORCE. rewrite Hl.
    unfold zeroV, newVector, or0, fin. intros E. injection E as E1 E2.
    replace (1 / 1 * 5 - 0) with 5 in E1 by field. lra.
Qed.

(** * Further properties of the engine *)

(** ** Vector *)


(** [Vector.dist] is symmetric, also when a coordinate is NaN, is the
    Euclidean distance between finite points, and is 0 from a point to itself. *)
Theorem dist_spec (p q : Vector) :
  dist p q = dist q p /\
  (forall a b c d, p = fin a b -> q = fin c d ->
     dist p q = Some (sqrt ((a - c) * (a - c) + (b - d) * (b - d)))) /\
  (finiteV p = true -> dist p p = Some 0).
Proof.
  repeat split.
  - destruct p as [[a|] [b|]], q as [[c|] [d|]];
      [|unfold dist, npow2, nsub, nmul, nadd; reflexivity ..].
    change (dist (fin a b) (fin c d) = dist (fin c d) (fin a b)).
    rewrite !dist_fin.
    replace ((a - c) * (a - c) + (b - d) * (b - d))
      with ((c - a) * (c - a) + (d - b) * (d - b)) by ring.
    reflexivity.
  - intros a b c d -> ->. apply dist_fin.
  - destruct p as [[a|] [b|]]; try discriminate. intros _.
    change (mkV (Some a) (Some b)) with (fin a b). rewrite dist_fin.
    replace ((a - a) * (a - a) + (b - b) * (b - b)) with 0 by ring.
    rewrite sqrt_0. reflexivity.
Qed.

Lemma mag_unit (a b : R) :
  0 < a * a + b * b ->
  mag (fin (a / sqrt (a * a + b * b)) (b / sqrt (a * a + b * b))) = Some 1.
Proof.
  intros Hs. pose proof (sqrt_pos_sq _ Hs) as Hm. pose proof (sqrt_sqrt _ (Rlt_le _ _ Hs)) as Hss.
  rewrite mag_fin.
  replace (a / sqrt (a * a + b * b) * (a / sqrt (a * a + b * b)) +
           b / sqrt (a * a + b * b) * (b / sqrt (a * a + b * b)))
    with ((a * a + b * b) / (sqrt (a * a + b * b) * sqrt (a * a + b * b)))
    by (field; lra).
  rewrite Hss. unfold Rdiv. rewrite Rinv_r by lra. rewrite sqrt_1. reflexivity.
Qed.

(** [normalize] turns a finite nonzero vector into the unit vector with the
    same direction, and returns the zero vector and a vector with a NaN
    component unchanged. *)
Theorem normalize_spec (v : Vector) :
  (finiteV v = false -> normalize v = v) /\
  normalize (fin 0 0) = fin 0 0 /\
  (forall a b, v = fin a b -> 0 < a * a + b * b ->
     exists k, 0 < k /\ normalize v = fin (k * a) (k * b) /\ mag (normalize v) = Some 1).
Proof.
  repeat split.
  - destruct v as [[a|] [b|]]; intros H; try discriminate; reflexivity.
  - apply normalize_zero. ring.
  - intros a b -> Hs. pose proof (sqrt_pos_sq _ Hs) as Hm.
    exists (/ sqrt (a * a + b * b)). split; [apply Rinv_0_lt_compat; exact Hm|].
    rewrite normalize_fin by exact Hs. split.
    + unfold fin; f_equal; f_equal; field; lra.
    + apply mag_unit. exact Hs.
Qed.

(** [setMag(m)] with [m >= 0] gives a finite nonzero vector the magnitude [m]
    and keeps its direction; the zero vector stays the zero vector whatever
    [m] is asked for. *)
Theorem setMag_spec (m : R) :
  setMag (fin 0 0) (Some m) = fin 0 0 /\
  (forall a b, 0 < a * a + b * b -> 0 <= m ->
     exists k, 0 <= k /\ setMag (fin a b) (Some m) = fin (k * a) (k * b) /\
       mag (setMag (fin a b) (Some m)) = Some m).
Proof.
  split.
  - unfold setMag. rewrite normalize_zero by ring. unfold mult, fin; cbn.
    f_equal; f_equal; ring.
  - intros a b Hs Hm0. pose proof (sqrt_pos_sq _ Hs) as Hm.
    pose proof (sqrt_sqrt _ (Rlt_le _ _ Hs)) as Hss.
    exists (m / sqrt (a * a + b * b)). split; [apply Rmult_le_pos; [lra | left; apply Rinv_0_lt_compat; lra]|].
    unfold setMag. rewrite normalize_fin by exact Hs. split.
    + unfold mult, fin; cbn. f_equal; f_equal; field; lra.
    + change (mult (fin (a / sqrt (a * a + b * b)) (b / sqrt (a * a + b * b))) (Some m))
        with (fin (a / sqrt (a * a + b * b) * m) (b / sqrt (a * a + b * b) * m)).
      rewrite mag_fin.
      replace (a / sqrt (a * a + b * b) * m * (a / sqrt (a * a + b * b) * m) +
               b / sqrt (a * a + b * b) * m * (b / sqrt (a * a + b * b) * m))
        with (m * m * ((a * a + b * b) / (sqrt (a * a + b * b) * sqrt (a * a + b * b))))
        by (field; lra).
      rewrite Hss. unfold Rdiv. rewrite Rinv_r by lra. rewrite Rmult_1_r.
      rewrite sqrt_square by exact Hm0. reflexivity.
Qed.

(** [limit] never lengthens a finite vector: it keeps it or shortens it by a
    factor in (0, 1]. *)
Lemma limit_shrinks (a b M : R) :
  0 < M ->
  exists k, 0 < k <= 1 /\ limit (fin a b) (Some M) = fin (k * a) (k * b) /\
    sqrt ((k * a) * (k * a) + (k * b) * (k * b)) <= M.
Proof.
  intros HM. unfold limit. rewrite mag_fin.
  set (s := a * a + b * b).
  assert (Hs : 0 <= s) by apply sumsq_nonneg.
  destruct (ngt (Some (sqrt s)) (Some M)) eqn:E.
  - apply ngt_true in E.
    assert (Hs' : 0 < s).
    { destruct (Rle_lt_dec s 0) as [H|H]; [|exact H].
      assert (s = 0) by lra. rewrite H0, sqrt_0 in E. lra. }
    pose proof (sqrt_pos_sq _ Hs') as Hm.
    pose proof (sqrt_sqrt s Hs) as Hss.
    exists (M / sqrt s). split; [split|].
    + apply Rdiv_lt_0_compat; lra.
    + apply Rmult_le_reg_r with (sqrt s); [lra|].
      unfold Rdiv. rewrite Rmult_assoc, Rinv_l by lra. lra.
    + split.
      * unfold setMag. rewrite normalize_fin by exact Hs'. fold s.
        unfold mult, fin; cbn. f_equal; f_equal; field; lra.
      * replace ((M / sqrt s * a) * (M / sqrt s * a) + (M / sqrt s * b) * (M / sqrt s * b))
          with (M * M * (s / (sqrt s * sqrt s))) by (unfold s in *; field; lra).
        rewrite Hss. unfold Rdiv. rewrite Rinv_r by lra. rewrite Rmult_1_r.
        rewrite sqrt_square by lra. lra.
  - apply ngt_false in E. exists 1. split; [lra|]. split.
    + unfold fin; f_equal; f_equal; ring.
    + replace ((1 * a) * (1 * a) + (1 * b) * (1 * b)) with s by (unfold s; ring). exact E.
Qed.

Lemma limit_nonfinite (v : Vector) (m : num) : finiteV v = false -> limit v m = v.
Proof.
  destruct v as [[a|] [b|]]; intros H; try discriminate;
    unfold limit, mag, ngt; cbn; reflexivity.
Qed.

(** [limit(max)] with [max > 0] leaves a finite vector's direction alone and
    shortens it to magnitude at most [max], leaves it unchanged when it is
    already no longer than [max], and leaves a vector with a NaN component
    unchanged. *)
Theorem limit_spec (v : Vector) (M : R) :
  (finiteV v = false -> limit v (Some M) = v) /\
  (forall a b, v = fin a b -> 0 < M ->
     exists k, 0 < k <= 1 /\ limit v (Some M) = fin (k * a) (k * b) /\
       sqrt ((k * a) * (k * a) + (k * b) * (k * b)) <= M) /\
  (forall a b, v = fin a b -> 0 <= M -> a * a + b * b <= M * M -> limit v (Some M) = v).
Proof.
  repeat split.
  - apply limit_nonfinite.
  - intros a b -> HM. apply limit_shrinks. exact HM.
  - intros a b -> HM H. apply limit_within; assumption.
Qed.

(** ** The three flocking rules *)

(** Each scan only ever counts up, and leaves the steering as it is when it
    counts no neighbour. *)
Lemma separation_loop_total (self : Boid) (i : nat) (ds : num) :
  forall l j s t, (t <= snd (separation_loop self i ds j l s t))%nat /\
    (snd (separation_loop self i ds j l s t) = t -> fst (separation_loop self i ds j l s t) = s).
Proof.
  induction l as [|o l IH]; intros j s t; cbn [separation_loop]; [cbn; split; [lia | reflexivity]|].
  destruct (Nat.eqb j i); [apply IH|]. cbv zeta.
  destruct (nlt _ ds); [|apply IH].
  destruct (IH (S j) (add s (div (sub (copy (position self)) (position o))
     (nmul (dist (position self) (position o)) (dist (position self) (position o))))) (S t))
    as [H1 H2].
  split; [lia | intros; exfalso; lia].
Qed.

Lemma alignment_loop_total (cfg : Config) (self : Boid) (i : nat) :
  forall l j s t, (t <= snd (alignment_loop cfg self i j l s t))%nat /\
    (snd (alignment_loop cfg self i j l s t) = t -> fst (alignment_loop cfg self i j l s t) = s).
Proof.
  induction l as [|o l IH]; intros j s t; cbn [alignment_loop]; [cbn; split; [lia | reflexivity]|].
  destruct (_ && _)%bool; [|apply IH].
  destruct (IH (S j) (add s (velocity o)) (S t)) as [H1 H2].
  split; [lia | intros; exfalso; lia].
Qed.

Lemma cohesion_loop_total (cfg : Config) (self : Boid) (i : nat) :
  forall l j s t, (t <= snd (cohesion_loop cfg self i j l s t))%nat /\
    (snd (cohesion_loop cfg self i j l s t) = t -> fst (cohesion_loop cfg self i j l s t) = s).
Proof.
  induction l as [|o l IH]; intros j s t; cbn [cohesion_loop]; [cbn; split; [lia | reflexivity]|].
  destruct (_ && _)%bool; [|apply IH].
  destruct (IH (S j) (add s (position o)) (S t)) as [H1 H2].
  split; [lia | intros; exfalso; lia].
Qed.

(** With nobody else in the perception radius, the two scans find nothing. *)
Lemma alignment_loop_alone (cfg : Config) (self : Boid) (i : nat) :
  forall l j s t,
  (forall k other, nth_error l k = Some other -> (j + k)%nat <> i ->
     nlt (dist (position self) (position other)) (PERCEPTION_RADIUS cfg) = false) ->
  alignment_loop cfg self i j l s t = (s, t) /\ cohesion_loop cfg self i j l s t = (s, t).
Proof.
  induction l as [|o l IH]; intros j s t H; [split; reflexivity|].
  cbn [alignment_loop cohesion_loop].
  assert (H' : forall k other, nth_error l k = Some other -> (S j + k)%nat <> i ->
     nlt (dist (position self) (position other)) (PERCEPTION_RADIUS cfg) = false).
  { intros k other Hk Hne. apply (H (S k) other Hk). lia. }
  destruct (Nat.eqb j i) eqn:Eji; cbn [negb andb]; [apply IH; exact H'|].
  apply Nat.eqb_neq in Eji. rewrite (H 0%nat o eq_refl ltac:(lia)).
  apply IH. exact H'.
Qed.

Lemma alignment_loop_nan (cfg : Config) (self : Boid) (i : nat) :
  finiteV (position self) = false ->
  forall l j s t,
  alignment_loop cfg self i j l s t = (s, t) /\ cohesion_loop cfg self i j l s t = (s, t).
Proof.
  intros Hp l j s t. apply alignment_loop_alone.
  intros k other _ _. rewrite (dist_nan_l _ _ Hp). unfold nlt, ngt.
  destruct (PERCEPTION_RADIUS cfg); reflexivity.
Qed.

(** A neighbour in range has a finite position; in [step_invariant] it then
    has a finite velocity too. *)
Lemma in_range_finite (p q : Vector) (r : num) :
  nlt (dist p q) r = true -> finiteV p = true /\ finiteV q = true.
Proof.
  intros H. apply ngt_true_inv in H as (rr & rd & _ & Ed & _).
  apply dist_some in Ed as (px & py & qx & qy & -> & -> & _). split; reflexivity.
Qed.

Lemma finiteV_fin (v : Vector) : finiteV v = true -> exists a b, v = fin a b.
Proof. destruct v as [[a|] [b|]]; intros H; try discriminate. exists a, b. reflexivity. Qed.

Lemma alignment_loop_fin (cfg : Config) (self : Boid) (i : nat) :
  forall l j sx sy t, Forall (fun b => step_invariant b = true) l ->
  exists a b, fst (alignment_loop cfg self i j l (fin sx sy) t) = fin a b.
Proof.
  induction l as [|o l IH]; intros j sx sy t Hl; [cbn; eauto|].
  inversion Hl as [|? ? Ho Hl']; subst. cbn [alignment_loop].
  destruct (negb (Nat.eqb j i) && nlt (dist (position self) (position o)) (PERCEPTION_RADIUS cfg))%bool
    eqn:E; [|apply IH; exact Hl'].
  apply andb_true_iff in E as [_ E]. apply in_range_finite in E as [_ Eo].
  unfold step_invariant in Ho. rewrite Eo, orb_false_r in Ho.
  apply finiteV_fin in Ho as (vx & vy & Hv). rewrite Hv.
  apply (IH (S j) (sx + vx) (sy + vy)). exact Hl'.
Qed.

Lemma cohesion_loop_fin (cfg : Config) (self : Boid) (i : nat) :
  forall l j sx sy t,
  exists a b, fst (cohesion_loop cfg self i j l (fin sx sy) t) = fin a b.
Proof.
  induction l as [|o l IH]; intros j sx sy t; [cbn; eauto|].
  cbn [cohesion_loop].
  destruct (negb (Nat.eqb j i) && nlt (dist (position self) (position o)) (PERCEPTION_RADIUS cfg))%bool
    eqn:E; [|apply IH].
  apply andb_true_iff in E as [_ E]. apply in_range_finite in E as [_ Eo].
  apply finiteV_fin in Eo as (px & py & Hp). rewrite Hp.
  apply (IH (S j) (sx + px) (sy + py)).
Qed.

(** The common tail of the three rules: average over the [S t] neighbours,
    steer towards MAX_SPEED in that direction and clamp to MAX_FORCE. *)
Lemma steer_bounded (a b vx vy : R) (t : nat) (f : Vector -> Vector) :
  (forall u w, exists u' w', f (fin u w) = fin u' w') ->
  exists c d, limit (sub (setMag (f (div (fin a b) (count (S t)))) MAX_SPEED) (fin vx vy)) MAX_FORCE
    = fin c d /\ sqrt (c * c + d * d) <= 1 / 2.
Proof.
  intros Hf.
  change (div (fin a b) (count (S t))) with
    (mkV (ndiv (Some a) (Some (INR (S t)))) (ndiv (Some b) (Some (INR (S t))))).
  rewrite !ndiv_nonzero by apply INR_S_nonzero.
  destruct (Hf (a / INR (S t)) (b / INR (S t))) as (u & w & Ef).
  change (mkV (Some (a / INR (S t))) (Some (b / INR (S t)))) with (fin (a / INR (S t)) (b / INR (S t))).
  rewrite Ef. destruct (setMag_finite u w 5) as (c & d & Em).
  unfold MAX_SPEED. rewrite Em.
  change (sub (fin c d) (fin vx vy)) with (fin (c - vx) (d - vy)).
  destruct (limit_shrinks (c - vx) (d - vy) (1 / 2)) as (k & _ & Hl & Hb); [lra|].
  unfold MAX_FORCE. rewrite Hl. eauto.
Qed.

(** [alignment] and [cohesion] return the zero vector when no other boid is
    strictly within the perception radius. *)
Theorem alignment_cohesion_alone (cfg : Config) (self : Boid) (i : nat) (boids : list Boid) :
  (forall j other, nth_error boids j = Some other -> j <> i ->
     nlt (dist (position self) (position other)) (PERCEPTION_RADIUS cfg) = false) ->
  alignment cfg self i boids = zeroV /\ cohesion cfg self i boids = zeroV.
Proof.
  intros H. destruct (alignment_loop_alone cfg self i boids 0 zeroV 0 H) as [Ea Ec].
  unfold alignment, cohesion. rewrite Ea, Ec. split; reflexivity.
Qed.

Lemma alignment_bounded_aux (cfg : Config) (self : Boid) (i : nat) (boids : list Boid) :
  step_invariant self = true -> Forall (fun b => step_invariant b = true) boids ->
  exists a b, alignment cfg self i boids = fin a b /\ sqrt (a * a + b * b) <= 1 / 2.
Proof.
  intros Hs Hb. unfold alignment.
  destruct (finiteV (position self)) eqn:Ep.
  2:{ destruct (alignment_loop_nan cfg self i Ep boids 0 zeroV 0) as [E _]. rewrite E.
      cbn. exists 0, 0. split; [reflexivity|]. rewrite Rmult_0_l, Rplus_0_l, sqrt_0. lra. }
  unfold step_invariant in Hs. rewrite Ep, orb_false_r in Hs.
  apply finiteV_fin in Hs as (vx & vy & Hv).
  destruct (alignment_loop_fin cfg self i boids 0 0 0 0 Hb) as (a & b & Ef).
  destruct (alignment_loop_total cfg self i boids 0 zeroV 0) as [_ Ht].
  change zeroV with (fin 0 0) in *.
  destruct (alignment_loop cfg self i 0 boids (fin 0 0) 0) as [st t] eqn:E.
  cbn [fst snd] in Ef, Ht. subst st.
  destruct (Nat.ltb 0 t) eqn:Et.
  - apply Nat.ltb_lt in Et. destruct t as [|t]; [lia|]. rewrite Hv.
    apply (steer_bounded a b vx vy t (fun v => v)). eauto.
  - apply Nat.ltb_ge in Et. assert (t = 0%nat) by lia. subst t.
    specialize (Ht eq_refl). rewrite Ht. exists 0, 0. split; [reflexivity|].
    rewrite Rmult_0_l, Rplus_0_l, sqrt_0. lra.
Qed.

Lemma alignment_cohesion_alone_witness :
  alignment demo_cfg follower 1 [leader; follower] = zeroV /\
  cohesion demo_cfg follower 1 [leader; follower] = zeroV.
Proof.
  apply alignment_cohesion_alone.
  intros [|[|j]] other Hj Hne; cbn in Hj; try discriminate.
  - injection Hj as <-.
    change (position follower) with (fin 50 0). change (position leader) with (fin 0 0).
    rewrite dist_fin. change (PERCEPTION_RADIUS demo_cfg) with (Some 50).
    replace (sqrt ((50 - 0) * (50 - 0) + (0 - 0) * (0 - 0))) with 50
      by (symmetry; apply sqrt_of_square; lra).
    unfold nlt. apply ngt_false. lra.
  - lia.
  - destruct j; discriminate.
Defined.

(** In the state every boid keeps ([step_invariant]), [alignment] returns a
    finite vector of magnitude at most MAX_FORCE, whatever the population. *)
Theorem alignment_bounded (cfg : Config) (self : Boid) (i : nat) (boids : list Boid) :
  step_invariant self = true -> Forall (fun b => step_invariant b = true) boids ->
  exists a b, alignment cfg self i boids = fin a b /\ sqrt (a * a + b * b) <= 1 / 2.
Proof. exact (alignment_bounded_aux cfg self i boids). Qed.


Lemma alignment_bounded_witness :
  step_invariant leader = true /\ Forall (fun b => step_invariant b = true) [leader; follower] /\
  exists a b, alignment demo_cfg leader 0 [leader; follower] = fin a b /\ sqrt (a * a + b * b) <= 1 / 2.
Proof.
  split; [reflexivity|]. split; [repeat constructor|].
  apply alignment_bounded; [reflexivity | repeat constructor].
Defined.

Lemma cohesion_bounded_aux (cfg : Config) (self : Boid) (i : nat) (boids : list Boid) :
  step_invariant self = true ->
  exists a b, cohesion cfg self i boids = fin a b /\ sqrt (a * a + b * b) <= 1 / 2.
Proof.
  intros Hs. unfold cohesion.
  destruct (finiteV (position self)) eqn:Ep.
  2:{ destruct (alignment_loop_nan cfg self i Ep boids 0 zeroV 0) as [_ E]. rewrite E.
      cbn. exists 0, 0. split; [reflexivity|]. rewrite Rmult_0_l, Rplus_0_l, sqrt_0. lra. }
  unfold step_invariant in Hs. rewrite Ep, orb_false_r in Hs.
  apply finiteV_fin in Hs as (vx & vy & Hv).
  apply finiteV_fin in Ep as (px & py & Hp).
  destruct (cohesion_loop_fin cfg self i boids 0 0 0 0) as (a & b & Ef).
  destruct (cohesion_loop_total cfg self i boids 0 zeroV 0) as [_ Ht].
  change zeroV with (fin 0 0) in *.
  destruct (cohesion_loop cfg self i 0 boids (fin 0 0) 0) as [st t] eqn:E.
  cbn [fst snd] in Ef, Ht. subst st.
  destruct (Nat.ltb 0 t) eqn:Et.
  - apply Nat.ltb_lt in Et. destruct t as [|t]; [lia|]. rewrite Hv, Hp.
    apply (steer_bounded a b vx vy t (fun v => sub v (fin px py))).
    intros u w. exists (u - px), (w - py). reflexivity.
  - apply Nat.ltb_ge in Et. assert (t = 0%nat) by lia. subst t.
    specialize (Ht eq_refl). rewrite Ht. exists 0, 0. split; [reflexivity|].
    rewrite Rmult_0_l, Rplus_0_l, sqrt_0. lra.
Qed.

(** For a boid in [step_invariant], [cohesion] returns a finite vector of
    magnitude at most MAX_FORCE, whatever the population. *)
Theorem cohesion_bounded (cfg : Config) (self : Boid) (i : nat) (boids : list Boid) :
  step_invariant self = true ->
  exists a b, cohesion cfg self i boids = fin a b /\ sqrt (a * a + b * b) <= 1 / 2.
Proof. exact (cohesion_bounded_aux cfg self i boids). Qed.


Lemma cohesion_bounded_witness :
  step_invariant follower = true /\
  exists a b, cohesion demo_cfg follower 1 [leader; follower] = fin a b /\ sqrt (a * a + b * b) <= 1 / 2.
Proof. split; [reflexivity|]. apply cohesion_bounded. reflexivity. Defined.

Lemma separation_bounded_aux (self : Boid) (i : nat) (boids : list Boid) :
  step_invariant self = true ->
  (forall j other, nth_error boids j = Some other -> j <> i ->
     nlt (dist (position self) (position other)) (nmul (size self) (Some 6)) = true ->
     ngt (dist (position self) (position other)) (Some 0) = true) ->
  exists a b, separation self i boids = fin a b /\ sqrt (a * a + b * b) <= 1 / 2.
Proof.
  intros Hs Hpre. unfold separation.
  destruct (finiteV (position self)) eqn:Ep.
  2:{ rewrite (separation_loop_nan self i _ Ep). cbn. exists 0, 0. split; [reflexivity|].
      rewrite Rmult_0_l, Rplus_0_l, sqrt_0. lra. }
  unfold step_invariant in Hs. rewrite Ep, orb_false_r in Hs.
  apply finiteV_fin in Hs as (vx & vy & Hv).
  destruct (separation_loop_finite self i (nmul (size self) (Some 6)) boids 0 0 0 0 Hpre)
    as (a & b & t & E).
  destruct (separation_loop_total self i (nmul (size self) (Some 6)) boids 0 zeroV 0) as [_ Ht].
  change zeroV with (fin 0 0) in *. rewrite E in Ht |- *. cbn [fst snd] in Ht.
  destruct (Nat.ltb 0 t) eqn:Et.
  - apply Nat.ltb_lt in Et. destruct t as [|t]; [lia|]. rewrite Hv.
    apply (steer_bounded a b vx vy t (fun v => v)). eauto.
  - apply Nat.ltb_ge in Et. assert (t = 0%nat) by lia. subst t.
    specialize (Ht eq_refl). rewrite Ht. exists 0, 0. split; [reflexivity|].
    rewrite Rmult_0_l, Rplus_0_l, sqrt_0. lra.
Qed.

(** For a boid in [step_invariant] and a population in which no other boid
    within [desiredSeparation] stands at distance 0, [separation] returns a
    finite vector of magnitude at most MAX_FORCE. *)
Theorem separation_bounded (self : Boid) (i : nat) (boids : list Boid) :
  step_invariant self = true ->
  (forall j other, nth_error boids j = Some other -> j <> i ->
     nlt (dist (position self) (position other)) (nmul (size self) (Some 6)) = true ->
     ngt (dist (position self) (position other)) (Some 0) = true) ->
  exists a b, separation self i boids = fin a b /\ sqrt (a * a + b * b) <= 1 / 2.
Proof. exact (separation_bounded_aux self i boids). Qed.


Lemma separation_bounded_witness :
  exists a b, separation (boid_at 0 0 0 0) 0 [boid_at 0 0 0 0; boid_at 3 4 0 0] = fin a b /\
    sqrt (a * a + b * b) <= 1 / 2.
Proof.
  apply (separation_bounded (boid_at 0 0 0 0) 0 [boid_at 0 0 0 0; boid_at 3 4 0 0]).
  - reflexivity.
  - intros [|[|j]] other Hj Hne Hin; cbn in Hj; try discriminate.
    + lia.
    + injection Hj as <-. cbn [position boid_at]. rewrite dist_fin.
      replace (sqrt ((0 - 3) * (0 - 3) + (0 - 4) * (0 - 4))) with 5
        by (symmetry; apply sqrt_of_square; lra).
      apply ngt_true; lra.
    + destruct j; discriminate.
Defined.

(** ** Combining forces *)

Lemma norm_nonneg (a b : R) : 0 <= sqrt (a * a + b * b).
Proof. apply sqrt_pos. Qed.

(** The triangle inequality for the magnitude [mag] computes. *)
Lemma norm_triangle (a b c d : R) :
  sqrt ((a + c) * (a + c) + (b + d) * (b + d)) <= sqrt (a * a + b * b) + sqrt (c * c + d * d).
Proof.
  pose proof (norm_nonneg a b) as H1. pose proof (norm_nonneg c d) as H2.
  pose proof (sqrt_sqrt _ (sumsq_nonneg a b)) as E1.
  pose proof (sqrt_sqrt _ (sumsq_nonneg c d)) as E2.
  rewrite <- (sqrt_square (sqrt (a * a + b * b) + sqrt (c * c + d * d))) by lra.
  apply sqrt_le_1_alt.
  assert (Hcs : a * c + b * d <= sqrt (a * a + b * b) * sqrt (c * c + d * d)).
  { destruct (Rle_lt_dec (a * c + b * d) 0) as [Hn|Hp]; [pose proof (Rmult_le_pos _ _ H1 H2); lra|].
    rewrite <- sqrt_mult by apply sumsq_nonneg.
    rewrite <- (sqrt_square (a * c + b * d)) by lra.
    apply sqrt_le_1_alt. pose proof (Rle_0_sqr (a * d - b * c)) as Hsq. unfold Rsqr in Hsq.
    nra. }
  nra.
Qed.

Lemma norm_scale (a b w : R) :
  sqrt ((a * w) * (a * w) + (b * w) * (b * w)) = Rabs w * sqrt (a * a + b * b).
Proof.
  replace ((a * w) * (a * w) + (b * w) * (b * w)) with ((w * w) * (a * a + b * b)) by ring.
  rewrite sqrt_mult by (apply Rle_0_sqr || apply sumsq_nonneg).
  rewrite <- (sqrt_Rsqr_abs w). reflexivity.
Qed.

(** One orb either leaves the boid as it is or adds to its acceleration the
    [limit(MAX_FORCE)] of a finite force. *)
Lemma orbStep_cases (cfg : Config) (b : Boid) (o : Orb) :
  orbStep cfg b o = b \/
  exists u w, orbStep cfg b o = applyForce b (limit (fin u w) MAX_FORCE).
Proof.
  unfold orbStep.
  destruct (ngt (dist (position b) (orb_position o)) (Some 1) &&
            nlt (dist (position b) (orb_position o)) (nmul (PERCEPTION_RADIUS cfg) (Some 2)))%bool
    eqn:E; [right | left; reflexivity].
  destruct (orb_in_range_geometry cfg (position b) (orb_position o) _ eq_refl E)
    as (px & py & qx & qy & rd & Hp & Hq & Hd & H1 & _).
  rewrite Hd, Hp, Hq.
  change (sub (copy (fin qx qy)) (fin px py)) with (fin (qx - px) (qy - py)).
  destruct (normalize_finite (qx - px) (qy - py)) as (n1 & n2 & En). rewrite En.
  destruct (String.eqb (type o) "attractor").
  - unfold ORB_STRENGTH. rewrite ndiv_nonzero by lra.
    exists (n1 * (40 / rd)), (n2 * (40 / rd)). reflexivity.
  - unfold ORB_STRENGTH, nneg. cbn [option_map]. rewrite ndiv_nonzero by lra.
    exists (n1 * (- 40 / rd)), (n2 * (- 40 / rd)). reflexivity.
Qed.

Lemma applyOrbForces_keeps (cfg : Config) :
  forall os b, let b' := applyOrbForces cfg b os in
  position b' = position b /\ velocity b' = velocity b /\ size b' = size b /\ color b' = color b.
Proof.
  induction os as [|o os IH]; intros b; [repeat split|].
  unfold applyOrbForces. cbn [fold_left]. fold (applyOrbForces cfg (orbStep cfg b o) os).
  destruct (IH (orbStep cfg b o)) as (E1 & E2 & E3 & E4).
  cbv zeta in *. rewrite E1, E2, E3, E4.
  destruct (orbStep_cases cfg b o) as [E | (u & w & E)]; rewrite E; repeat split.
Qed.


(** The orbs together change a finite acceleration by a force of magnitude at
    most [MAX_FORCE] per orb. *)
Theorem applyOrbForces_bounded (cfg : Config) (orbs : list Orb) (b : Boid) (ax ay : R) :
  acceleration b = fin ax ay ->
  exists fx fy, acceleration (applyOrbForces cfg b orbs) = fin (ax + fx) (ay + fy) /\
    sqrt (fx * fx + fy * fy) <= INR (List.length orbs) * (1 / 2).
Proof.
  revert b ax ay. induction orbs as [|o orbs IH]; intros b ax ay Ha.
  - exists 0, 0. cbn. rewrite Ha. split.
    + unfold fin; f_equal; f_equal; ring.
    + rewrite Rmult_0_l, Rplus_0_l, sqrt_0. lra.
  - unfold applyOrbForces. cbn [fold_left]. fold (applyOrbForces cfg (orbStep cfg b o) orbs).
    rewrite length_cons, S_INR.
    destruct (orbStep_cases cfg b o) as [E | (u & w & E)]; rewrite E.
    + destruct (IH b ax ay Ha) as (fx & fy & Ef & Hf). exists fx, fy. split; [exact Ef | lra].
    + destruct (limit_shrinks u w (1 / 2)) as (k & _ & Hl & Hk); [lra|].
      unfold MAX_FORCE. rewrite Hl.
      destruct (IH (applyForce b (fin (k * u) (k * w))) (ax + k * u) (ay + k * w))
        as (fx & fy & Ef & Hf).
      { cbn. rewrite Ha. reflexivity. }
      exists (k * u + fx), (k * w + fy). split.
      * rewrite Ef. unfold fin; f_equal; f_equal; ring.
      * pose proof (norm_triangle (k * u) (k * w) fx fy). lra.
Qed.

Lemma applyOrbForces_bounded_witness :
  exists fx fy, acceleration (applyOrbForces demo_cfg (boid_at 0 0 0 0) [attractor_at 30 40])
    = fin (0 + fx) (0 + fy) /\
    sqrt (fx * fx + fy * fy) <= INR (List.length [attractor_at 30 40]) * (1 / 2).
Proof. apply applyOrbForces_bounded. reflexivity. Defined.

(** [flock] adds to a finite acceleration a force of magnitude at most
    [(|SEPARATION_WEIGHT| + |ALIGNMENT_WEIGHT| + |COHESION_WEIGHT|) * MAX_FORCE],
    for a boid and population in [step_invariant] with no other boid at
    distance 0 within [desiredSeparation], and numeric weights. *)
Theorem flock_bounded (cfg : Config) (self : Boid) (i : nat) (boids : list Boid)
    (ws wa wc ax ay : R) :
  SEPARATION_WEIGHT cfg = Some ws -> ALIGNMENT_WEIGHT cfg = Some wa ->
  COHESION_WEIGHT cfg = Some wc ->
  step_invariant self = true -> Forall (fun b => step_invariant b = true) boids ->
  (forall j other, nth_error boids j = Some other -> j <> i ->
     nlt (dist (position self) (position other)) (nmul (size self) (Some 6)) = true ->
     ngt (dist (position self) (position other)) (Some 0) = true) ->
  acceleration self = fin ax ay ->
  exists fx fy, acceleration (flock cfg self i boids) = fin (ax + fx) (ay + fy) /\
    sqrt (fx * fx + fy * fy) <= (Rabs ws + Rabs wa + Rabs wc) * (1 / 2).
Proof.
  intros Hws Hwa Hwc Hs Hb Hpre Ha.
  destruct (separation_bounded_aux self i boids Hs Hpre) as (s1 & s2 & Es & Bs).
  destruct (alignment_bounded_aux cfg self i boids Hs Hb) as (a1 & a2 & Eal & Ba).
  destruct (cohesion_bounded_aux cfg self i boids Hs) as (c1 & c2 & Ec & Bc).
  exists (s1 * ws + a1 * wa + c1 * wc), (s2 * ws + a2 * wa + c2 * wc). split.
  - unfold flock. rewrite Es, Eal, Ec, Hws, Hwa, Hwc. cbn. rewrite Ha.
    unfold add, mult, fin; cbn. f_equal; f_equal; ring.
  - pose proof (norm_triangle (s1 * ws + a1 * wa) (s2 * ws + a2 * wa) (c1 * wc) (c2 * wc)) as T1.
    pose proof (norm_triangle (s1 * ws) (s2 * ws) (a1 * wa) (a2 * wa)) as T2.
    rewrite (norm_scale c1 c2 wc) in T1. rewrite (norm_scale s1 s2 ws), (norm_scale a1 a2 wa) in T2.
    pose proof (Rabs_pos ws). pose proof (Rabs_pos wa). pose proof (Rabs_pos wc).
    pose proof (Rmult_le_compat_l _ _ _ (Rabs_pos ws) Bs).
    pose proof (Rmult_le_compat_l _ _ _ (Rabs_pos wa) Ba).
    pose proof (Rmult_le_compat_l _ _ _ (Rabs_pos wc) Bc).
    lra.
Qed.

Lemma flock_bounded_witness :
  exists fx fy, acceleration (flock demo_cfg (boid_at 0 0 0 0) 0 [boid_at 0 0 0 0; boid_at 3 4 0 0])
    = fin (0 + fx) (0 + fy) /\
    sqrt (fx * fx + fy * fy) <= (Rabs (3 / 2) + Rabs 1 + Rabs 1) * (1 / 2).
Proof.
  apply (flock_bounded demo_cfg (boid_at 0 0 0 0) 0 [boid_at 0 0 0 0; boid_at 3 4 0 0]);
    try reflexivity.
  - repeat constructor.
  - intros [|[|j]] other Hj Hne Hin; cbn in Hj; try discriminate.
    + lia.
    + injection Hj as <-. cbn [position boid_at]. rewrite dist_fin.
      replace (sqrt ((0 - 3) * (0 - 3) + (0 - 4) * (0 - 4))) with 5
        by (symmetry; apply sqrt_of_square; lra).
      apply ngt_true; lra.
    + destruct j; discriminate.
Defined.

(** ** Integration and boundaries *)

(** With a finite state, [update] adds the acceleration to the velocity,
    scales the sum down only as far as needed to reach MAX_SPEED, moves the
    position by the new velocity and resets the acceleration to zero. *)
Theorem update_finite (b : Boid) (px py vx vy ax ay : R) :
  position b = fin px py -> velocity b = fin vx vy -> acceleration b = fin ax ay ->
  exists k, 0 < k <= 1 /\
    velocity (update b) = fin (k * (vx + ax)) (k * (vy + ay)) /\
    sqrt ((k * (vx + ax)) * (k * (vx + ax)) + (k * (vy + ay)) * (k * (vy + ay))) <= 5 /\
    position (update b) = fin (px + k * (vx + ax)) (py + k * (vy + ay)) /\
    acceleration (update b) = fin 0 0.
Proof.
  intros Hp Hv Ha. unfold update. rewrite Hp, Hv, Ha.
  change (add (fin vx vy) (fin ax ay)) with (fin (vx + ax) (vy + ay)).
  destruct (limit_shrinks (vx + ax) (vy + ay) 5) as (k & Hk & Hl & Hb); [lra|].
  unfold MAX_SPEED. rewrite Hl. exists k. cbn [velocity position acceleration].
  repeat split; try lra; try exact Hb; try reflexivity.
  unfold mult, fin; cbn. f_equal; f_equal; ring.
Qed.

Lemma update_finite_witness :
  exists k, 0 < k <= 1 /\
    velocity (update (boid_at 0 0 3 4)) = fin (k * (3 + 0)) (k * (4 + 0)) /\
    sqrt ((k * (3 + 0)) * (k * (3 + 0)) + (k * (4 + 0)) * (k * (4 + 0))) <= 5 /\
    position (update (boid_at 0 0 3 4)) = fin (0 + k * (3 + 0)) (0 + k * (4 + 0)) /\
    acceleration (update (boid_at 0 0 3 4)) = fin 0 0.
Proof. apply update_finite; reflexivity. Defined.

Lemma wrap_coord (c : num) (W : nat) :
  within (if ngt c (Some (INR W)) then Some 0
          else if nlt c (Some 0) then Some (INR W) else c) (INR W).
Proof.
  pose proof (pos_INR W).
  destruct c as [r|]; [|unfold nlt, ngt; exact I].
  destruct (ngt (Some r) (Some (INR W))) eqn:E1; [cbn; lra|].
  destruct (nlt (Some r) (Some 0)) eqn:E2; [cbn; lra|].
  apply ngt_false in E1. unfold nlt in E2. apply ngt_false in E2. cbn. lra.
Qed.

Lemma bounce_coord (c v : num) (Wr : R) :
  1 <= Wr ->
  within (fst (if ngt c (Some Wr) then (nsub (Some Wr) (Some 1), nmul v (Some (-1)))
               else if nlt c (Some 0) then (Some 1, nmul v (Some (-1))) else (c, v))) Wr.
Proof.
  intros HW.
  destruct c as [r|]; [|unfold nlt, ngt; exact I].
  destruct (ngt (Some r) (Some Wr)) eqn:E1; [cbn; lra|].
  destruct (nlt (Some r) (Some 0)) eqn:E2; [cbn; lra|].
  apply ngt_false in E1. unfold nlt in E2. apply ngt_false in E2. cbn. lra.
Qed.

Lemma edges_wrap_on_canvas_aux (cfg : Config) (b : Boid) :
  on_canvas cfg (position (edges cfg true b)).
Proof.
  unfold edges, set_position, on_canvas, canvas_width, canvas_height. cbn [position x y].
  split; apply wrap_coord.
Qed.

Lemma edges_bounce_on_canvas_aux (cfg : Config) (b : Boid) :
  (1 <= width cfg)%nat -> (1 <= height cfg)%nat ->
  on_canvas cfg (position (edges cfg false b)).
Proof.
  intros HW HH. apply le_INR in HW, HH. rewrite INR_1 in HW, HH.
  pose proof (bounce_coord (x (position b)) (x (velocity b)) _ HW) as Bx.
  pose proof (bounce_coord (y (position b)) (y (velocity b)) _ HH) as By.
  unfold edges, on_canvas, canvas_width, canvas_height in *.
  destruct (if ngt (x (position b)) (Some (INR (width cfg))) then _ else _) as [px vx].
  destruct (if ngt (y (position b)) (Some (INR (height cfg))) then _ else _) as [py vy].
  cbn in *. split; assumption.
Qed.

(** In wrap mode, after [edges] every coordinate of the position that is a
    number lies on the canvas, [[0, width] x [0, height]]. *)
Theorem edges_wrap_on_canvas (cfg : Config) (b : Boid) :
  on_canvas cfg (position (edges cfg true b)).
Proof. apply edges_wrap_on_canvas_aux. Qed.

(** In bounce mode on a canvas at least 1 pixel wide and high, after [edges]
    every coordinate of the position that is a number lies on the canvas. *)
Theorem edges_bounce_on_canvas (cfg : Config) (b : Boid) :
  (1 <= width cfg)%nat -> (1 <= height cfg)%nat ->
  on_canvas cfg (position (edges cfg false b)).
Proof. apply edges_bounce_on_canvas_aux. Qed.

Lemma edges_bounce_on_canvas_witness :
  (1 <= width demo_cfg)%nat /\ (1 <= height demo_cfg)%nat /\
  on_canvas demo_cfg (position (edges demo_cfg false (boid_at 900 (-5) 3 (-4)))).
Proof.
  split; [cbn; lia|]. split; [cbn; lia|].
  apply edges_bounce_on_canvas; cbn; lia.
Defined.

(** Each velocity component after [edges] is the old one or its negation. *)
Lemma edges_velocity_coords (cfg : Config) (w : bool) (b : Boid) :
  (x (velocity (edges cfg w b)) = x (velocity b) \/
   x (velocity (edges cfg w b)) = nmul (x (velocity b)) (Some (-1))) /\
  (y (velocity (edges cfg w b)) = y (velocity b) \/
   y (velocity (edges cfg w b)) = nmul (y (velocity b)) (Some (-1))).
Proof.
  unfold edges. destruct w; [split; left; reflexivity|].
  split_ifs; cbn; split; (left; reflexivity) || (right; reflexivity).
Qed.

Lemma sq_neg (a : R) : (a * -1) * (a * -1) = a * a.
Proof. ring. Qed.

Lemma edges_speed_aux (cfg : Config) (w : bool) (b : Boid) (vx vy : R) :
  velocity b = fin vx vy ->
  exists ux uy, velocity (edges cfg w b) = fin ux uy /\ ux * ux + uy * uy = vx * vx + vy * vy.
Proof.
  intros Hv. destruct (edges_velocity_coords cfg w b) as [Hx Hy].
  rewrite Hv in Hx, Hy. cbn in Hx, Hy.
  destruct (velocity (edges cfg w b)) as [ex ey]. cbn in Hx, Hy.
  destruct Hx as [-> | ->], Hy as [-> | ->];
    [exists vx, vy | exists vx, (vy * -1) | exists (vx * -1), vy | exists (vx * -1), (vy * -1)];
    split; try reflexivity; rewrite ?sq_neg; reflexivity.
Qed.

(** [edges] never changes the speed: in bounce mode it only negates velocity
    components, in wrap mode it leaves the velocity alone. *)
Theorem edges_keeps_speed (cfg : Config) (w : bool) (b : Boid) (vx vy : R) :
  velocity b = fin vx vy ->
  exists ux uy, velocity (edges cfg w b) = fin ux uy /\ ux * ux + uy * uy = vx * vx + vy * vy.
Proof. apply edges_speed_aux. Qed.

Lemma edges_keeps_speed_witness :
  exists ux uy, velocity (edges demo_cfg false (boid_at 900 (-5) 3 (-4))) = fin ux uy /\
    ux * ux + uy * uy = 3 * 3 + (-4) * (-4).
Proof. apply edges_keeps_speed. reflexivity. Defined.

(** ** A whole frame *)

Lemma speed_ok_update (b : Boid) : speed_ok (velocity (update b)).
Proof.
  unfold update. cbn [velocity].
  destruct (finiteV (add (velocity b) (acceleration b))) eqn:E.
  - apply finiteV_fin in E as (a & c & E). rewrite E.
    destruct (limit_shrinks a c 5) as (k & _ & Hl & Hb); [lra|].
    unfold MAX_SPEED. rewrite Hl. exact Hb.
  - rewrite limit_nonfinite by exact E.
    destruct (add (velocity b) (acceleration b)) as [[a|] [c|]]; try discriminate; exact I.
Qed.

Lemma speed_ok_edges (cfg : Config) (w : bool) (b : Boid) :
  speed_ok (velocity b) -> speed_ok (velocity (edges cfg w b)).
Proof.
  destruct (finiteV (velocity b)) eqn:E.
  - apply finiteV_fin in E as (vx & vy & Hv).
    destruct (edges_speed_aux cfg w b vx vy Hv) as (ux & uy & Eu & Hs).
    unfold speed_ok. rewrite Hv, Eu. cbn. rewrite Hs. exact (fun H => H).
  - intros _. destruct (edges_velocity_coords cfg w b) as [Hx Hy].
    unfold speed_ok.
    destruct (velocity (edges cfg w b)) as [ex ey]. cbn in Hx, Hy |- *.
    destruct (velocity b) as [[a|] [c|]]; try discriminate; cbn in Hx, Hy;
      destruct Hx as [-> | ->]; destruct Hy as [-> | ->]; exact I.
Qed.

Lemma edges_keeps (cfg : Config) (w : bool) (b : Boid) :
  size (edges cfg w b) = size b /\ color (edges cfg w b) = color b.
Proof. unfold edges. destruct w; [split; reflexivity|]. split_ifs; split; reflexivity. Qed.

Lemma boid_step_keeps (cfg : Config) (orbs : list Orb) (i : nat) (l : list Boid) (b : Boid) :
  size (boid_step cfg orbs i l b) = size b /\ color (boid_step cfg orbs i l b) = color b.
Proof.
  unfold boid_step. destruct (edges_keeps cfg (wrap cfg) (update (applyOrbForces cfg (flock cfg b i l) orbs)))
    as [E1 E2].
  rewrite E1, E2. cbn [update size color].
  destruct (applyOrbForces_keeps cfg orbs (flock cfg b i l)) as (_ & _ & E3 & E4).
  rewrite E3, E4. split; reflexivity.
Qed.

Lemma boid_step_speed (cfg : Config) (orbs : list Orb) (i : nat) (l : list Boid) (b : Boid) :
  speed_ok (velocity (boid_step cfg orbs i l b)).
Proof. unfold boid_step. apply speed_ok_edges, speed_ok_update. Qed.

Lemma boid_step_on_canvas (cfg : Config) (orbs : list Orb) (i : nat) (l : list Boid) (b : Boid) :
  wrap cfg = true \/ (1 <= width cfg /\ 1 <= height cfg)%nat ->
  on_canvas cfg (position (boid_step cfg orbs i l b)).
Proof.
  unfold boid_step. destruct (wrap cfg) eqn:W.
  - intros _. apply edges_wrap_on_canvas_aux.
  - intros [H | [HW HH]]; [discriminate|]. apply edges_bounce_on_canvas_aux; assumption.
Qed.

Lemma animate_loop_length (cfg : Config) (orbs : list Orb) :
  forall k s boids, List.length (animate_loop cfg orbs s k boids) = List.length boids.
Proof.
  induction k as [|k IH]; intros s bs; [reflexivity|].
  cbn [animate_loop]. rewrite IH. apply animate_step_length.
Qed.

(** After [k] bodies of the loop from index [s], the boids at indices
    [s .. s + k - 1] are the output of [boid_step], the others are as they
    were; size and colour never change. *)
Lemma animate_loop_stepped (cfg : Config) (orbs : list Orb) :
  forall k s bs j b', nth_error (animate_loop cfg orbs s k bs) j = Some b' ->
  exists b, nth_error bs j = Some b /\ size b' = size b /\ color b' = color b /\
    ((s <= j < s + k)%nat -> exists i l b0, b' = boid_step cfg orbs i l b0) /\
    (~ (s <= j < s + k)%nat -> b' = b).
Proof.
  induction k as [|k IH]; intros s bs j b' H.
  - cbn in H. exists b'. split; [exact H|]. split; [reflexivity|]. split; [reflexivity|].
    split; intros; [exfalso; lia | reflexivity].
  - cbn [animate_loop] in H. apply IH in H as (b1 & H1 & Hs1 & Hc1 & Hin & Hout).
    unfold animate_step in H1. destruct (nth_error bs s) as [bs0|] eqn:Es.
    + destruct (Nat.eq_dec j s) as [->|Hne].
      * assert (Hlt : (s < List.length bs)%nat) by (apply nth_error_Some; congruence).
        rewrite set_nth_same in H1 by exact Hlt. injection H1 as <-.
        assert (E' : b' = boid_step cfg orbs s bs bs0) by (apply Hout; lia).
        destruct (boid_step_keeps cfg orbs s bs bs0) as [K1 K2].
        exists bs0. split; [exact Es|]. rewrite E'. split; [exact K1|]. split; [exact K2|].
        split; [intros _; eauto | intros; exfalso; lia].
      * rewrite set_nth_other in H1 by exact Hne.
        exists b1. split; [exact H1|]. split; [exact Hs1|]. split; [exact Hc1|].
        split; [intros; apply Hin; lia | intros; apply Hout; lia].
    + destruct (Nat.eq_dec j s) as [->|Hne]; [congruence|].
      exists b1. split; [exact H1|]. split; [exact Hs1|]. split; [exact Hc1|].
      split; [intros; apply Hin; lia | intros; apply Hout; lia].
Qed.

Lemma frame_stepped (cfg : Config) (orbs : list Orb) (bs : list Boid) (j : nat) (b' : Boid) :
  nth_error (frame cfg orbs bs) j = Some b' ->
  exists b i l b0, nth_error bs j = Some b /\ size b' = size b /\ color b' = color b /\
    b' = boid_step cfg orbs i l b0.
Proof.
  intros H. assert (Hj : (j < List.length bs)%nat).
  { rewrite <- (animate_loop_length cfg orbs (List.length bs) 0 bs).
    apply nth_error_Some. unfold frame in H. congruence. }
  unfold frame in H. apply animate_loop_stepped in H as (b & Hb & Hs & Hc & Hin & _).
  destruct (Hin ltac:(lia)) as (i & l & b0 & E).
  exists b, i, l, b0. repeat split; assumption.
Qed.

Lemma frame_facts (cfg : Config) (orbs : list Orb) (bs : list Boid) :
  List.length (frame cfg orbs bs) = List.length bs /\
  forall j b', nth_error (frame cfg orbs bs) j = Some b' ->
    exists b, nth_error bs j = Some b /\ size b' = size b /\ color b' = color b /\
      step_invariant b' = true /\ speed_ok (velocity b') /\
      (wrap cfg = true \/ (1 <= width cfg /\ 1 <= height cfg)%nat -> on_canvas cfg (position b')).
Proof.
  split; [apply animate_loop_length|].
  intros j b' H. apply frame_stepped in H as (b & i & l & b0 & Hb & Hs & Hc & ->).
  exists b. split; [exact Hb|]. split; [exact Hs|]. split; [exact Hc|].
  split; [apply boid_step_invariant|]. split; [apply boid_step_speed|].
  apply boid_step_on_canvas.
Qed.

(** One frame keeps the population's length and each boid's size and colour,
    and leaves every boid in [step_invariant], with a speed of at most
    MAX_SPEED when its velocity is finite, and, in wrap mode or on a canvas
    at least 1 pixel wide and high, with every numeric coordinate of its
    position on the canvas. *)
Theorem frame_invariants (cfg : Config) (orbs : list Orb) (bs : list Boid) :
  List.length (frame cfg orbs bs) = List.length bs /\
  forall j b', nth_error (frame cfg orbs bs) j = Some b' ->
    exists b, nth_error bs j = Some b /\ size b' = size b /\ color b' = color b /\
      step_invariant b' = true /\ speed_ok (velocity b') /\
      (wrap cfg = true \/ (1 <= width cfg /\ 1 <= height cfg)%nat -> on_canvas cfg (position b')).
Proof. apply frame_facts. Qed.

(** ** Construction, initialisation and reset *)

Lemma newBoid_facts (show : R -> string) (cfg : Config) (rnd : nat -> R) (c : nat) :
  (forall k, 0 <= rnd k < 1) ->
  let b := newBoid show cfg rnd c in
  position b = fin (rnd c * INR (width cfg)) (rnd (c + 1)%nat * INR (height cfg)) /\
  on_canvas cfg (position b) /\
  velocity b = fin (rnd (c + 2)%nat * 4 - 2) (rnd (c + 3)%nat * 4 - 2) /\
  -2 <= rnd (c + 2)%nat * 4 - 2 < 2 /\ -2 <= rnd (c + 3)%nat * 4 - 2 < 2 /\
  acceleration b = fin 0 0 /\ size b = Some 2 /\ step_invariant b = true.
Proof.
  intros Hr. cbv zeta.
  pose proof (Hr c) as R0. pose proof (Hr (c + 1)%nat) as R1.
  pose proof (Hr (c + 2)%nat) as R2. pose proof (Hr (c + 3)%nat) as R3.
  pose proof (pos_INR (width cfg)) as W. pose proof (pos_INR (height cfg)) as H.
  assert (Ev : velocity (newBoid show cfg rnd c) =
               fin (rnd (c + 2)%nat * 4 - 2) (rnd (c + 3)%nat * 4 - 2)).
  { unfold newBoid. cbn [velocity].
    change (newVector (nsub (nmul (Some (rnd (c + 2)%nat)) (Some 4)) (Some 2))
                      (nsub (nmul (Some (rnd (c + 3)%nat)) (Some 4)) (Some 2)))
      with (fin (rnd (c + 2)%nat * 4 - 2) (rnd (c + 3)%nat * 4 - 2)).
    unfold MAX_SPEED. apply limit_within; [lra|]. nra. }
  split; [reflexivity|]. split.
  { unfold on_canvas. cbn. split; split; nra. }
  split; [exact Ev|]. split; [lra|]. split; [lra|].
  split; [reflexivity|]. split; [reflexivity|].
  unfold step_invariant. rewrite Ev. reflexivity.
Qed.

(** [new Boid()] with [Math.random()] values in [[0, 1)] puts the boid on the
    canvas at [(r0 * width, r1 * height)], gives it the velocity
    [(r2 * 4 - 2, r3 * 4 - 2)], whose components lie in [[-2, 2)], so that the
    [limit(MAX_SPEED)] of the constructor never changes it, and a zero
    acceleration and size 2; the new boid is in [step_invariant]. *)
Theorem newBoid_spec (show : R -> string) (cfg : Config) (rnd : nat -> R) (c : nat) :
  (forall k, 0 <= rnd k < 1) ->
  let b := newBoid show cfg rnd c in
  position b = fin (rnd c * INR (width cfg)) (rnd (c + 1)%nat * INR (height cfg)) /\
  on_canvas cfg (position b) /\
  velocity b = fin (rnd (c + 2)%nat * 4 - 2) (rnd (c + 3)%nat * 4 - 2) /\
  -2 <= rnd (c + 2)%nat * 4 - 2 < 2 /\ -2 <= rnd (c + 3)%nat * 4 - 2 < 2 /\
  acceleration b = fin 0 0 /\ size b = Some 2 /\ step_invariant b = true.
Proof. apply newBoid_facts. Qed.

Lemma newBoid_spec_witness :
  (forall k : nat, 0 <= (fun _ : nat => 1 / 4) k < 1) /\
  velocity (newBoid (fun _ => EmptyString) demo_cfg (fun _ => 1 / 4) 0)
    = fin ((fun _ : nat => 1 / 4) (0 + 2)%nat * 4 - 2) ((fun _ : nat => 1 / 4) (0 + 3)%nat * 4 - 2).
Proof.
  split; [intros; lra|].
  apply (newBoid_spec (fun _ => EmptyString) demo_cfg (fun _ => 1 / 4) 0).
  intros; lra.
Defined.

Lemma newBoids_facts (show : R -> string) (cfg : Config) (rnd : nat -> R) :
  forall n c, List.length (newBoids show cfg rnd c n) = n /\
    Forall (fun b => size b = Some 2) (newBoids show cfg rnd c n).
Proof.
  induction n as [|n IH]; intros c; [split; [reflexivity | constructor]|].
  cbn [newBoids List.length]. destruct (IH (c + 5)%nat) as [L F].
  split; [rewrite L; reflexivity | constructor; [reflexivity | exact F]].
Qed.

(** [initSimulation] discards every orb, replaces the population by exactly
    [NUM_BOIDS] new boids and runs one frame over them: the canvas takes the
    rectangle's size, the other parameters stay, and every boid has size 2,
    is in [step_invariant] and has a speed of at most MAX_SPEED when its
    velocity is finite. *)
Theorem initSimulation_spec (show : R -> string) (rnd : nat -> R) (rw rh : nat) (st : Sim) :
  let st' := initSimulation show rnd rw rh st in
  let p := params st in
  orbs st' = [] /\ NUM_BOIDS st' = NUM_BOIDS st /\ List.length (boids st') = NUM_BOIDS st /\
  params st' = mkConfig (PERCEPTION_RADIUS p) (SEPARATION_WEIGHT p) (ALIGNMENT_WEIGHT p)
                 (COHESION_WEIGHT p) (wrap p) rw rh /\
  Forall (fun b => size b = Some 2 /\ step_invariant b = true /\ speed_ok (velocity b))
    (boids st').
Proof.
  cbv zeta. unfold initSimulation, animate. cbn [params NUM_BOIDS boids orbs].
  set (cfg := mkConfig _ _ _ _ _ rw rh).
  destruct (newBoids_facts show (params st) rnd (NUM_BOIDS st) 0) as [L F].
  destruct (frame_facts cfg [] (newBoids show (params st) rnd 0 (NUM_BOIDS st))) as [FL FF].
  split; [reflexivity|]. split; [reflexivity|]. split; [rewrite FL; exact L|].
  split; [reflexivity|].
  apply Forall_forall. intros b Hin. apply In_nth_error in Hin as (j & Hj).
  destruct (FF j b Hj) as (b0 & Hb0 & Hs & _ & Hinv & Hsp & _).
  rewrite Forall_forall in F. apply nth_error_In in Hb0.
  split; [rewrite Hs; exact (F b0 Hb0)|]. split; assumption.
Qed.

(** The reset button sets the perception radius to 50, the weights to 1.5, 1
    and 1 and the boid count to 500, discards every orb and restarts with 500
    new boids; it leaves the boundary mode (wrap or bounce) as it was. *)
Theorem resetClick_spec (show : R -> string) (rnd : nat -> R) (rw rh : nat) (st : Sim) :
  let st' := resetClick show rnd rw rh st in
  PERCEPTION_RADIUS (params st') = Some 50 /\ SEPARATION_WEIGHT (params st') = Some (3 / 2) /\
  ALIGNMENT_WEIGHT (params st') = Some 1 /\ COHESION_WEIGHT (params st') = Some 1 /\
  wrap (params st') = wrap (params st) /\ NUM_BOIDS st' = 500%nat /\ orbs st' = [] /\
  List.length (boids st') = 500%nat.
Proof.
  cbv zeta. unfold resetClick, initSimulation, animate. cbn [params NUM_BOIDS boids orbs
    PERCEPTION_RADIUS SEPARATION_WEIGHT ALIGNMENT_WEIGHT COHESION_WEIGHT wrap].
  do 7 (split; [reflexivity|]).
  unfold frame. rewrite animate_loop_length. apply newBoids_facts.
Qed.
